(** * longest-word: the trie, the deferred break candidates and the ranking pass

    A shallow embedding of [main.c] (the "longest concatenated word" program)
    and the properties of its two phases: reading the word file into a trie
    while recording break candidates, then checking every candidate against
    the finished trie and ranking the confirmed words.

    Modelling choices, all read off the C source:
    - a C string is a [list ascii]; [c_str] cuts it at its first NUL byte,
      which is what [strlen], [strdup] and [strndup] see of it;
    - a [trie] node is its [word_end] flag and its array of [NBCHAR] child
      slots, [None] for a NULL slot; nodes are owned by their parent, so the
      pointer structure is a tree and an in-place update of a child is the
      parent rebuilt around the updated child;
    - [insert node word offset len missing] is modelled on the slice
      [word[offset..len)] that is still to be consumed;
    - [is_in_trie] restarts at the global [root] and is not structurally
      recursive: it takes fuel, [None] meaning that the fuel ran out;
    - [INDEX x] outside [0, NBCHAR) indexes out of the child array in C
      (undefined behaviour); here such a slot reads as NULL and a write to it
      is dropped.  Files made of lower-case words never reach that case;
    - [total] is an [unsigned int]: its increment wraps at [2^32];
    - freeing memory, argument parsing and the unused local [has_prefix]
      are left out. *)

From Stdlib Require Import ZArith Ascii String Lia Permutation Sorted.
From stdpp Require Import base list.

Local Open Scope nat_scope.

(** ** Strings *)

Definition cstring := list ascii.

Definition NUL : ascii := "000"%char.
Definition CR : ascii := "013"%char.
Definition LF : ascii := "010"%char.

(** The part of a buffer that the C string functions see. *)
Fixpoint c_str (s : cstring) : cstring :=
  match s with
  | [] => []
  | c :: s' => if Ascii.eqb c NUL then [] else c :: c_str s'
  end.

Definition strlen (s : cstring) : nat := length (c_str s).
Definition strdup (s : cstring) : cstring := c_str s.
Definition strndup (s : cstring) (n : nat) : cstring := c_str (take n s).

(** ** Data structures *)

Definition NBCHAR : nat := 26.

#[warnings="-register-all"]
Inductive trie : Type :=
  Trie { word_end : bool; children : list (option trie) }.

Definition missing_list := list cstring.

Record pending_rec : Type :=
  Pending { word : cstring; missing : missing_list }.

Definition pending_list := list pending_rec.

(** [calloc(1, sizeof(trie))]: flag 0 and every child NULL. *)
Definition calloc_trie : trie := Trie false (replicate NBCHAR None).

Definition INDEX (x : ascii) : Z :=
  (Z.of_nat (nat_of_ascii x) - Z.of_nat (nat_of_ascii "a"))%Z.

Definition in_range (i : Z) : bool :=
  ((0 <=? i) && (i <? Z.of_nat NBCHAR))%Z.

(** [node->children[i]].  The C array access has no bounds check: for [i]
    outside [0, NBCHAR) it reads out of the array (undefined behaviour).
    The guard below is the model's own and stands for nothing in the code;
    it is reached only by characters outside [a]-[z], and statements about
    the program's behaviour are made for lower-case words. *)
Definition get_child (node : trie) (i : Z) : option trie :=
  if in_range i then
    match children node !! Z.to_nat i with
    | Some slot => slot
    | None => None
    end
  else None.

(** [node->children[i] = child].  In C a write outside [0, NBCHAR) lands
    out of the array (for [i = -1] on the node's own [word_end]); the model
    drops it, which is faithful only in that lower-case words never get
    there. *)
Definition set_child (node : trie) (i : Z) (child : trie) : trie :=
  if in_range i then
    Trie (word_end node) (<[Z.to_nat i := Some child]> (children node))
  else node.

(** ** Helpers for the lists *)

Definition push_to_missing (list : missing_list) (m : cstring) : missing_list :=
  m :: list.

Definition push_to_pending (list : pending_list) (w : cstring)
    (m : missing_list) : pending_list :=
  Pending w m :: list.

(** ** Trie insertion

    [insert node w missing] is the call [insert(node, word, offset, len,
    missing)] where [w] is [word[offset..len)].  It returns the updated node
    together with the new head of the missing list. *)
Fixpoint insert (node : trie) (w : cstring) (missing : missing_list)
    : trie * missing_list :=
  match w with
  | [] => (Trie true (children node), missing)
  | c :: rest =>
      let missing1 :=
        if word_end node
        then push_to_missing missing (strndup w (length w))
        else missing in
      let child :=
        match get_child node (INDEX c) with
        | None => calloc_trie
        | Some t => t
        end in
      let (child', missing2) := insert child rest missing1 in
      (set_child node (INDEX c) child', missing2)
  end.

(** ** The matcher

    [is_in_trie fuel root node w]: [node] is [None] for a NULL pointer and
    [w] is the [len] characters at [word].  The [||] and [&&] of the C
    return expression are evaluated left to right and cut short. *)
Fixpoint is_in_trie (fuel : nat) (root : trie) (node : option trie)
    (w : cstring) : option bool :=
  match fuel with
  | O => None
  | S fuel' =>
      match node with
      | None => Some false
      | Some n =>
          match w with
          | [] => Some (word_end n)
          | c :: rest =>
              match is_in_trie fuel' root (get_child n (INDEX c)) rest with
              | None => None
              | Some true => Some true
              | Some false =>
                  if word_end n
                  then is_in_trie fuel' root (Some root) w
                  else Some false
              end
          end
      end
  end.

(** ** The driver: reading the file *)

(** One iteration of the [getline] loop; [line] is the buffer that
    [getline] filled, terminator included, and [read] its length. *)
Definition read_line (st : trie * pending_list) (line : cstring)
    : trie * pending_list :=
  let read := length line in
  if read <=? 2 then st
  else
    let (root', m) := insert (fst st) (take (read - 2) line) [] in
    match m with
    | [] => (root', snd st)
    | _ :: _ => (root', push_to_pending (snd st) (strdup line) m)
    end.

Definition read_lines (lines : list cstring) : trie * pending_list :=
  fold_left read_line lines (calloc_trie, []).

(** ** The driver: the verification pass *)

Record ranking : Type := Ranking {
  longest : option cstring;
  longest_len : nat;
  oldlongest : option cstring;
  oldlongest_len : nat;
  total : Z
}.

Definition ranking_init : ranking := Ranking None 0 None 0 0.

Definition UINT_MOD : Z := (2 ^ 32)%Z.

(** The body of the [if] at the first matching suffix: the two ranking
    comparisons, then [total++]. *)
Definition confirm (st : ranking) (w : cstring) : ranking :=
  let len := strlen w in
  let t := ((total st + 1) mod UINT_MOD)%Z in
  if longest_len st <? len then
    Ranking (Some (strdup w)) len (longest st) (longest_len st) t
  else if oldlongest_len st <? len then
    Ranking (longest st) (longest_len st) (Some (strdup w)) len t
  else
    Ranking (longest st) (longest_len st) (oldlongest st) (oldlongest_len st) t.

(** The inner [while] over one record's missing list.  Once [matched] is
    set the matcher is not called any more. *)
Fixpoint check_missing (fuel : nat) (root : trie) (w : cstring)
    (ms : missing_list) (matched : bool) (st : ranking) : option ranking :=
  match ms with
  | [] => Some st
  | m :: next_miss =>
      if matched then check_missing fuel root w next_miss matched st
      else
        match is_in_trie fuel root (Some root) (take (strlen m) m) with
        | None => None
        | Some true => check_missing fuel root w next_miss true (confirm st w)
        | Some false => check_missing fuel root w next_miss false st
        end
  end.

(** The outer [while] over the pending list, head first. *)
Fixpoint check_pending (fuel : nat) (root : trie) (pending : pending_list)
    (st : ranking) : option ranking :=
  match pending with
  | [] => Some st
  | p :: next =>
      match check_missing fuel root (word p) (missing p) false st with
      | None => None
      | Some st' => check_pending fuel root next st'
      end
  end.

(** What the three [printf]s show: a NULL pointer is printed as "NULL". *)
Record results : Type := Results {
  res_longest : option cstring;
  res_oldlongest : option cstring;
  res_total : Z
}.

Definition main (fuel : nat) (lines : list cstring) : option results :=
  let (root, pending) := read_lines lines in
  match check_pending fuel root pending ranking_init with
  | None => None
  | Some st => Some (Results (longest st) (oldlongest st) (total st))
  end.

(** ** Input files *)

Definition CRLF : cstring := [CR; LF].

(** The line that [getline] returns for the word [w] of a CRLF file. *)
Definition line_of (w : cstring) : cstring := w ++ CRLF.

Definition file_of (ws : list cstring) : list cstring := map line_of ws.

Definition is_lower (c : ascii) : bool := in_range (INDEX c).

Definition lowercase (w : cstring) : Prop := Forall (fun c => is_lower c = true) w.

Definition str (s : string) : cstring := list_ascii_of_string s.

(** * Specification vocabulary *)

(** Every node has exactly the [NBCHAR] slots of the C array. *)
Inductive wf_trie : trie -> Prop :=
| wf_Trie e ch :
    length ch = NBCHAR ->
    (forall i t, ch !! i = Some (Some t) -> wf_trie t) ->
    wf_trie (Trie e ch).

(** The node reached from [n] along the characters of [p]. *)
Fixpoint walk (n : trie) (p : cstring) : option trie :=
  match p with
  | [] => Some n
  | c :: p' =>
      match get_child n (INDEX c) with
      | Some ch => walk ch p'
      | None => None
      end
  end.

(** [p] is a word of the dictionary held below [n]. *)
Definition memberb (n : trie) (p : cstring) : bool :=
  match walk n p with
  | Some t => word_end t
  | None => false
  end.

(** [text] is a concatenation of [k] or more non-empty words taken from the
    set [D]. *)
Definition partition_of (D : cstring -> Prop) (k : nat) (text : cstring) : Prop :=
  exists parts : list cstring,
    concat parts = text /\ k <= length parts /\
    Forall (fun p => p <> [] /\ D p) parts.

(** What is left to match below node [n]: the current word is completed by
    a prefix [p] of [w], and the rest is empty or a concatenation of words
    of [root]. *)
Definition completes (root n : trie) (w : cstring) : Prop :=
  exists p rest,
    w = p ++ rest /\ memberb n p = true /\
    (rest = [] \/ partition_of (fun q => memberb root q = true) 1 rest).

(** The child that [insert] descends into: the existing one, or the one it
    has just allocated. *)
Definition child_or_new (n : trie) (c : ascii) : trie :=
  match get_child n (INDEX c) with
  | None => calloc_trie
  | Some t => t
  end.

(** Calls that [is_in_trie] may nest below [node] with [w] left, when the
    root does not end a word: a restart at the root is always followed by
    a descent. *)
Definition cost (node : option trie) (w : cstring) : nat :=
  match node with
  | None => 1
  | Some n => 2 * length w + (if word_end n then 2 else 1)
  end.

(** The test of the inner loop: [is_in_trie(root, m, strlen(m)) == 1]. *)
Definition matchesb (fuel : nat) (root : trie) (m : cstring) : bool :=
  match is_in_trie fuel root (Some root) (take (strlen m) m) with
  | Some true => true
  | _ => false
  end.

(** The record has a suffix that the matcher accepts. *)
Definition rec_matches (fuel : nat) (root : trie) (r : pending_rec) : bool :=
  existsb (matchesb fuel root) (missing r).

(** The words that reach [total++], in the order of the pass. *)
Definition counted (fuel : nat) (root : trie) (pending : pending_list)
    : list cstring :=
  map word (List.filter (rec_matches fuel root) pending).

(** The three values that [main] prints from a ranking. *)
Definition results_of (st : ranking) : results :=
  Results (longest st) (oldlongest st) (total st).

(** The confirmed words of a whole run. *)
Definition confirmed (fuel : nat) (lines : list cstring) : list cstring :=
  counted fuel (fst (read_lines lines)) (snd (read_lines lines)).

(** Fuel that covers every suffix of every line. *)
Definition fuel_ok (fuel : nat) (lines : list cstring) : Prop :=
  Forall (fun l : cstring => 2 * length l <= fuel) lines.

(** The two lengths that the ranking keeps, and one comparison step on
    them. *)
Definition lens (st : ranking) : nat * nat := (longest_len st, oldlongest_len st).

Definition lens_step (ab : nat * nat) (n : nat) : nat * nat :=
  if fst ab <? n then (n, fst ab)
  else if snd ab <? n then (fst ab, n)
  else ab.

(** A slot is empty exactly when its length is still 0, and otherwise holds
    a string of that length. *)
Definition slot_ok (slot : option cstring) (len : nat) : Prop :=
  match slot with
  | None => len = 0
  | Some s => length s = len /\ 0 < len
  end.

(** What holds of the ranking all along the verification pass. *)
Record rank_inv (st : ranking) : Prop := RankInv {
  inv_order : oldlongest_len st <= longest_len st;
  inv_longest : slot_ok (longest st) (longest_len st);
  inv_oldlongest : slot_ok (oldlongest st) (oldlongest_len st);
  inv_total : (0 <= total st < UINT_MOD)%Z
}.

(** ** Sample inputs *)

(** The file [a], [aa], [aaa]. *)
Definition scenario_B : list cstring :=
  file_of [str "a"; str "aa"; str "aaa"].

(** A file in which the concatenated word [cat] occurs twice. *)
Definition duplicated_cat : list cstring :=
  file_of [str "ca"; str "t"; str "cat"; str "cat"].

(** The file with the single word [a]. *)
Definition one_a : list cstring := file_of [str "a"].

(** Every word of the file that is a proper prefix of another comes before
    it, as it does in a sorted file. *)
Definition prefix_first (ws : list cstring) : Prop :=
  forall ws1 w ws2 p s,
    ws = ws1 ++ w :: ws2 -> w = p ++ s -> p <> [] -> s <> [] ->
    In p ws -> In p ws1.

(** Orders of the words [cat], [dog], [catdog] and of [a], [ab], [b],
    [ba]. *)
Definition cat_dog_catdog : list cstring := [str "cat"; str "dog"; str "catdog"].
Definition catdog_first : list cstring := [str "catdog"; str "cat"; str "dog"].
Definition a_then_b : list cstring := [str "a"; str "ab"; str "b"; str "ba"].
Definition b_then_a : list cstring := [str "b"; str "ba"; str "a"; str "ab"].

(** Decides [prefix_first] on a list that is written out. *)
Ltac prefix_first_leaf Hw Hs Hin :=
  cbn [In] in Hin;
  repeat (destruct Hin as [<-|Hin]);
  try contradiction;
  vm_compute in Hw; simplify_eq;
  first [congruence | cbn [In]; auto 10].

Ltac prefix_first_list :=
  let ws1 := fresh "ws1" in
  let Hsplit := fresh "Hsplit" in
  let Hw := fresh "Hw" in
  let Hs := fresh "Hs" in
  let Hin := fresh "Hin" in
  intros ws1 ? ? ? ? Hsplit Hw _ Hs Hin;
  repeat (destruct ws1 as [|? ws1];
          [ injection Hsplit as <- <-; prefix_first_leaf Hw Hs Hin
          | try discriminate Hsplit; injection Hsplit as <- Hsplit ]);
  try (destruct ws1; discriminate Hsplit).

(** ** Vocabulary for the trie as a dictionary *)

(** The trie after one iteration of the reading loop; the pending list
    plays no part in it. *)
Definition trie_step (root : trie) (line : cstring) : trie :=
  fst (read_line (root, []) line).

(** The word that the reading loop takes from a line: the line without its
    last two characters, provided something is left. *)
Definition word_of_line (D : list cstring) (p : cstring) : Prop :=
  exists l, In l D /\ 2 < length l /\ p = take (length l - 2) l.

(** The order of [strcmp] on strings of unsigned bytes. *)
Fixpoint lex_leb (a b : cstring) : bool :=
  match a, b with
  | [], _ => true
  | _ :: _, [] => false
  | x :: a', y :: b' =>
      if nat_of_ascii x <? nat_of_ascii y then true
      else if nat_of_ascii x =? nat_of_ascii y then lex_leb a' b'
      else false
  end.

(** Strictly before, in that order: a sorted file without repeated words
    is [StronglySorted lex_lt]. *)
Definition lex_lt (a b : cstring) : Prop := lex_leb a b = true /\ a <> b.

(** * Basic facts

    ** Strings *)

Lemma is_lower_not_NUL c : is_lower c = true -> Ascii.eqb c NUL = false.
Proof.
  intros H. destruct (Ascii.eqb_spec c NUL) as [->|]; [discriminate H | reflexivity].
Qed.

Lemma c_str_lowercase w : lowercase w -> c_str w = w.
Proof.
  induction 1 as [|c w Hc _ IH]; simpl; [reflexivity|].
  rewrite (is_lower_not_NUL c Hc), IH. reflexivity.
Qed.

Lemma c_str_app_lowercase w s : lowercase w -> c_str (w ++ s) = w ++ c_str s.
Proof.
  induction 1 as [|c w Hc _ IH]; simpl; [reflexivity|].
  rewrite (is_lower_not_NUL c Hc), IH. reflexivity.
Qed.

Lemma c_str_line_of w : lowercase w -> c_str (line_of w) = line_of w.
Proof. intros H. unfold line_of. rewrite c_str_app_lowercase by exact H. reflexivity. Qed.

Lemma c_str_idem s : c_str (c_str s) = c_str s.
Proof.
  induction s as [|c s IH]; simpl; [reflexivity|].
  destruct (Ascii.eqb c NUL) eqn:E; simpl; [reflexivity|].
  rewrite E, IH. reflexivity.
Qed.

Lemma take_strlen s : take (strlen s) s = c_str s.
Proof.
  unfold strlen. induction s as [|c s IH]; simpl; [reflexivity|].
  destruct (Ascii.eqb c NUL); simpl; [reflexivity|]. rewrite IH. reflexivity.
Qed.

Lemma strndup_whole s : strndup s (length s) = c_str s.
Proof. unfold strndup. rewrite firstn_all. reflexivity. Qed.

Lemma length_line_of w : length (line_of w) = length w + 2.
Proof. unfold line_of. rewrite length_app. reflexivity. Qed.

Lemma take_line_of w : take (length (line_of w) - 2) (line_of w) = w.
Proof.
  rewrite length_line_of. replace (length w + 2 - 2) with (length w) by lia.
  apply take_app_length.
Qed.

Lemma line_of_inj w1 w2 : line_of w1 = line_of w2 -> w1 = w2.
Proof. unfold line_of. apply app_inv_tail. Qed.

Lemma lowercase_app p s : lowercase (p ++ s) <-> lowercase p /\ lowercase s.
Proof. unfold lowercase. apply Forall_app. Qed.

(** ** The child array *)

Lemma get_child_calloc i : get_child calloc_trie i = None.
Proof.
  unfold get_child, calloc_trie; cbn [children].
  destruct (in_range i); [|reflexivity].
  destruct (replicate NBCHAR (@None trie) !! Z.to_nat i) as [slot|] eqn:E; [|reflexivity].
  apply lookup_replicate_1 in E. tauto.
Qed.

Lemma word_end_set_child n i t : word_end (set_child n i t) = word_end n.
Proof. unfold set_child. destruct (in_range i); reflexivity. Qed.

Lemma get_set_child_eq n i t :
  length (children n) = NBCHAR -> in_range i = true ->
  get_child (set_child n i t) i = Some t.
Proof.
  intros Hlen Hi. unfold get_child, set_child. rewrite Hi; simpl.
  rewrite list_lookup_insert_eq; [reflexivity|].
  unfold in_range in Hi. rewrite Hlen. lia.
Qed.

Lemma get_set_child_ne n i j t :
  i <> j -> get_child (set_child n i t) j = get_child n j.
Proof.
  intros Hne. unfold get_child, set_child.
  destruct (in_range i) eqn:Hi; [|reflexivity].
  destruct (in_range j) eqn:Hj; [|reflexivity]. simpl.
  rewrite list_lookup_insert_ne; [reflexivity|].
  unfold in_range in *. lia.
Qed.

Lemma get_child_in_range n i t : get_child n i = Some t -> in_range i = true.
Proof. unfold get_child. destruct (in_range i); [reflexivity | discriminate]. Qed.

Lemma wf_calloc : wf_trie calloc_trie.
Proof.
  constructor; [apply length_replicate|].
  intros i t H. apply lookup_replicate_1 in H. destruct H; discriminate.
Qed.

Lemma wf_length n : wf_trie n -> length (children n) = NBCHAR.
Proof. destruct 1; assumption. Qed.

Lemma wf_get_child n i t : wf_trie n -> get_child n i = Some t -> wf_trie t.
Proof.
  intros Hwf H. destruct Hwf as [e ch Hlen Hch]. unfold get_child in H; simpl in H.
  destruct (in_range i); [|discriminate].
  destruct (ch !! Z.to_nat i) as [slot|] eqn:E; [|discriminate].
  subst slot. eapply Hch; eassumption.
Qed.

Lemma wf_set_child n i t : wf_trie n -> wf_trie t -> wf_trie (set_child n i t).
Proof.
  intros Hn Ht. unfold set_child. destruct (in_range i); [|assumption].
  destruct Hn as [e ch Hlen Hch]; simpl. constructor.
  - rewrite length_insert. assumption.
  - intros j u Hj. apply list_lookup_insert_Some in Hj.
    destruct Hj as [(_ & Hu & _) | (_ & Hj)].
    + injection Hu as <-. assumption.
    + eapply Hch; eassumption.
Qed.

Lemma wf_set_word_end n : wf_trie n -> wf_trie (Trie true (children n)).
Proof. destruct 1 as [e ch Hlen Hch]; simpl. constructor; assumption. Qed.

(** ** Walking the trie *)

Lemma INDEX_inj c c' : INDEX c = INDEX c' -> c = c'.
Proof.
  unfold INDEX. intros H.
  rewrite <- (ascii_nat_embedding c), <- (ascii_nat_embedding c').
  f_equal. lia.
Qed.

Lemma memberb_nil n : memberb n [] = word_end n.
Proof. reflexivity. Qed.

Lemma memberb_calloc p : memberb calloc_trie p = false.
Proof.
  destruct p as [|c p]; [reflexivity|].
  unfold memberb; cbn [walk]. rewrite get_child_calloc. reflexivity.
Qed.

Lemma memberb_cons n c p : memberb n (c :: p) = memberb (child_or_new n c) p.
Proof.
  unfold memberb, child_or_new; cbn [walk].
  destruct (get_child n (INDEX c)) as [t|]; [reflexivity|].
  symmetry. apply memberb_calloc.
Qed.

Lemma wf_child_or_new n c : wf_trie n -> wf_trie (child_or_new n c).
Proof.
  intros H. unfold child_or_new.
  destruct (get_child n (INDEX c)) as [t|] eqn:E; [|apply wf_calloc].
  eapply wf_get_child; eassumption.
Qed.

(** ** Insertion: the trie it builds *)

Lemma insert_cons n c rest m :
  insert n (c :: rest) m =
  (set_child n (INDEX c)
     (fst (insert (child_or_new n c) rest
             (if word_end n then strndup (c :: rest) (length (c :: rest)) :: m else m))),
   snd (insert (child_or_new n c) rest
          (if word_end n then strndup (c :: rest) (length (c :: rest)) :: m else m))).
Proof.
  cbn [insert]. unfold child_or_new, push_to_missing.
  destruct (insert _ rest _); reflexivity.
Qed.

Lemma insert_fst n w m : fst (insert n w m) = fst (insert n w []).
Proof.
  revert n m. induction w as [|c rest IH]; intros n m; [reflexivity|].
  rewrite !insert_cons; cbn [fst].
  rewrite IH. symmetry. rewrite IH. reflexivity.
Qed.

Lemma wf_insert n w m : wf_trie n -> wf_trie (fst (insert n w m)).
Proof.
  revert n m. induction w as [|c rest IH]; intros n m Hwf.
  - apply wf_set_word_end. assumption.
  - rewrite insert_cons; cbn [fst]. apply wf_set_child; [assumption|].
    apply IH, wf_child_or_new. assumption.
Qed.

Lemma word_end_insert n w m :
  w <> [] -> word_end (fst (insert n w m)) = word_end n.
Proof.
  destruct w as [|c rest]; [congruence|]. intros _.
  rewrite insert_cons; cbn [fst]. apply word_end_set_child.
Qed.

(** After inserting [w] the dictionary below [n] is the old one plus [w]. *)
Lemma memberb_insert n w m p :
  wf_trie n -> lowercase w ->
  memberb (fst (insert n w m)) p = true <-> memberb n p = true \/ p = w.
Proof.
  revert n m p. induction w as [|c rest IH]; intros n m p Hwf Hlow.
  - cbn [insert fst]. destruct p as [|c' p'].
    + rewrite memberb_nil; cbn. tauto.
    + assert (memberb (Trie true (children n)) (c' :: p') = memberb n (c' :: p'))
        as -> by reflexivity.
      split; [tauto | intros [H|H]; [assumption | discriminate]].
  - apply Forall_cons_1 in Hlow as [Hc Hrest].
    rewrite insert_cons; cbn [fst].
    destruct p as [|c' p'].
    + rewrite !memberb_nil, word_end_set_child.
      split; [tauto | intros [H|H]; [assumption | discriminate]].
    + destruct (ascii_dec c' c) as [->|Hne].
      * unfold memberb at 1; cbn [walk].
        rewrite get_set_child_eq by (auto using wf_length).
        fold (memberb (fst (insert (child_or_new n c) rest
          (if word_end n then strndup (c :: rest) (length (c :: rest)) :: m else m))) p').
        rewrite IH by (auto using wf_child_or_new).
        rewrite memberb_cons.
        split; (intros [H|H]; [left; assumption | right; congruence]).
      * unfold memberb at 1; cbn [walk].
        rewrite get_set_child_ne by (intros E; apply INDEX_inj in E; congruence).
        fold (walk n (c' :: p')). fold (memberb n (c' :: p')).
        split; [tauto | intros [H|H]; [assumption | congruence]].
Qed.

(** ** Insertion: the missing list it returns *)

(** The new entries are the suffixes left over where a proper prefix of
    the word is already a dictionary word. *)
Lemma In_missing_insert n w m s :
  In s (snd (insert n w m)) <->
  In s m \/
  exists p s', w = p ++ s' /\ s' <> [] /\ s = c_str s' /\ memberb n p = true.
Proof.
  revert n m. induction w as [|c rest IH]; intros n m.
  - cbn [insert snd]. split; [tauto|].
    intros [H|(p & s' & Hw & Hs' & _)]; [assumption|].
    symmetry in Hw. apply app_eq_nil in Hw as [_ ->]. congruence.
  - rewrite insert_cons; cbn [snd]. rewrite IH, strndup_whole. split.
    + intros [H|(p & s' & Hw & Hs' & Hs & Hp)].
      * destruct (word_end n) eqn:E; [|tauto].
        destruct H as [<-|H]; [|tauto].
        right. exists [], (c :: rest). rewrite memberb_nil. repeat split; congruence.
      * right. exists (c :: p), s'. rewrite memberb_cons.
        repeat split; try assumption. cbn. congruence.
    + intros [H|(p & s' & Hw & Hs' & Hs & Hp)].
      * left. destruct (word_end n); [right|]; assumption.
      * destruct p as [|c' p'].
        -- cbn in Hw. subst s'. rewrite memberb_nil in Hp. rewrite Hp.
           left. left. congruence.
        -- injection Hw as <- ->. rewrite memberb_cons in Hp.
           right. exists p', s'. repeat split; assumption.
Qed.

Lemma insert_calloc_missing w m : snd (insert calloc_trie w m) = m.
Proof.
  revert m. induction w as [|c rest IH]; intros m; [reflexivity|].
  rewrite insert_cons; cbn [snd]. unfold child_or_new.
  rewrite get_child_calloc, IH. reflexivity.
Qed.

(** ** The matcher: fuel, termination and meaning *)

Lemma is_in_trie_mono fuel fuel' root node w b :
  is_in_trie fuel root node w = Some b -> fuel <= fuel' ->
  is_in_trie fuel' root node w = Some b.
Proof.
  revert fuel' node w b. induction fuel as [|fuel IH]; intros fuel' node w b H Hle;
    [discriminate|].
  destruct fuel' as [|fuel']; [lia|]. apply le_S_n in Hle.
  cbn [is_in_trie] in *.
  destruct node as [n|]; [|assumption].
  destruct w as [|c rest]; [assumption|].
  destruct (is_in_trie fuel root (get_child n (INDEX c)) rest) as [[|]|] eqn:E;
    [| |discriminate].
  - rewrite (IH _ _ _ _ E Hle). assumption.
  - rewrite (IH _ _ _ _ E Hle).
    destruct (word_end n); [|assumption]. apply IH; assumption.
Qed.

Lemma cost_child n c rest fuel :
  cost (Some n) (c :: rest) <= S fuel ->
  cost (get_child n (INDEX c)) rest <= fuel.
Proof.
  unfold cost; cbn [length].
  destruct (get_child n (INDEX c)) as [t|]; [destruct (word_end t)|];
    destruct (word_end n); lia.
Qed.

Section Matcher.
Variable root : trie.
Hypothesis root_not_end : word_end root = false.

Lemma cost_restart n w fuel :
  word_end n = true -> cost (Some n) w <= S fuel -> cost (Some root) w <= fuel.
Proof. unfold cost. rewrite root_not_end. intros ->. lia. Qed.

(** With fuel for [cost] calls the matcher returns. *)
Lemma is_in_trie_total fuel node w :
  cost node w <= fuel -> exists b, is_in_trie fuel root node w = Some b.
Proof.
  revert node w. induction fuel as [|fuel IH]; intros node w Hc.
  - destruct node as [n|]; cbn in Hc; [destruct (word_end n)|]; lia.
  - cbn [is_in_trie]. destruct node as [n|]; [|eauto].
    destruct w as [|c rest]; [eauto|].
    destruct (IH _ _ (cost_child _ _ _ _ Hc)) as [[|] ->]; [eauto|].
    destruct (word_end n) eqn:E; [|eauto].
    apply IH. eapply cost_restart; eassumption.
Qed.

Lemma completes_root w :
  completes root root w <-> partition_of (fun q => memberb root q = true) 1 w.
Proof.
  split.
  - intros (p & rest & -> & Hp & Hrest).
    assert (p <> []) as Hne
      by (intros ->; rewrite memberb_nil, root_not_end in Hp; discriminate).
    destruct Hrest as [->|(parts & <- & _ & Hall)].
    + exists [p]. cbn. rewrite app_nil_r. repeat split; [lia|].
      repeat constructor; assumption.
    + exists (p :: parts). cbn. repeat split; [lia|].
      constructor; [split|]; assumption.
  - intros (parts & <- & Hlen & Hall).
    destruct parts as [|q qs]; [cbn in Hlen; lia|].
    apply Forall_cons_1 in Hall as [[Hq Hmem] Hqs].
    exists q, (concat qs). repeat split; [assumption|].
    destruct qs as [|q' qs']; [left; reflexivity|right].
    exists (q' :: qs'). repeat split; [cbn; lia | assumption].
Qed.

(** A successful match has consumed the text as the rest of the current
    word followed by whole dictionary words. *)
Lemma is_in_trie_sound fuel n w :
  is_in_trie fuel root (Some n) w = Some true -> completes root n w.
Proof.
  revert n w. induction fuel as [|fuel IH]; intros n w H; [discriminate|].
  cbn [is_in_trie] in H. destruct w as [|c rest].
  - injection H as H. exists [], []. rewrite memberb_nil. auto.
  - destruct (is_in_trie fuel root (get_child n (INDEX c)) rest) as [[|]|] eqn:E;
      [| |discriminate].
    + destruct (get_child n (INDEX c)) as [t|] eqn:Ech.
      * destruct (IH _ _ E) as (p & r & -> & Hp & Hr).
        exists (c :: p), r. repeat split; [|assumption].
        rewrite memberb_cons. unfold child_or_new. rewrite Ech. assumption.
      * destruct fuel; discriminate E.
    + destruct (word_end n) eqn:Eend; [|discriminate].
      exists [], (c :: rest). rewrite memberb_nil. repeat split; [assumption|].
      right. apply completes_root. apply IH. assumption.
Qed.

Lemma is_in_trie_complete fuel n w :
  cost (Some n) w <= fuel -> completes root n w ->
  is_in_trie fuel root (Some n) w = Some true.
Proof.
  revert n w. induction fuel as [|fuel IH]; intros n w Hc Hw.
  - cbn in Hc. destruct (word_end n); lia.
  - cbn [is_in_trie]. destruct w as [|c rest].
    + destruct Hw as (p & r & Hw & Hp & _).
      symmetry in Hw. apply app_eq_nil in Hw as [-> _].
      rewrite memberb_nil in Hp. congruence.
    + destruct (is_in_trie_total fuel _ _ (cost_child _ _ _ _ Hc)) as [[|] E];
        rewrite E; [reflexivity|].
      destruct Hw as (p & r & Hw & Hp & Hr). destruct p as [|c' p'].
      * cbn in Hw. subst r. rewrite memberb_nil in Hp. rewrite Hp.
        apply IH; [eapply cost_restart; eassumption|].
        apply completes_root.
        destruct Hr as [Hr|Hr]; [discriminate | assumption].
      * injection Hw as <- ->. rewrite memberb_cons in Hp.
        unfold child_or_new in Hp.
        destruct (get_child n (INDEX c)) as [t|] eqn:Ech;
          [|rewrite memberb_calloc in Hp; discriminate].
        rewrite IH in E; [discriminate | |].
        -- pose proof (cost_child _ _ _ _ Hc) as Hc'. rewrite Ech in Hc'. exact Hc'.
        -- exists p', r. auto.
Qed.

(** The matcher at the root decides whether the text is a concatenation
    of one or more dictionary words. *)
Lemma is_in_trie_root fuel w :
  2 * length w + 1 <= fuel ->
  exists b, is_in_trie fuel root (Some root) w = Some b /\
    (b = true <-> partition_of (fun q => memberb root q = true) 1 w).
Proof.
  intros Hf.
  assert (cost (Some root) w <= fuel) as Hc
    by (unfold cost; rewrite root_not_end; lia).
  destruct (is_in_trie_total fuel _ _ Hc) as [b Hb].
  exists b. split; [assumption|]. rewrite <- completes_root. split.
  - intros ->. eapply is_in_trie_sound; eassumption.
  - intros H. apply (is_in_trie_complete fuel) in H; [congruence | assumption].
Qed.
End Matcher.

(** ** The reading loop *)

Lemma read_lines_snoc ls l : read_lines (ls ++ [l]) = read_line (read_lines ls) l.
Proof. unfold read_lines. rewrite fold_left_app. reflexivity. Qed.

Lemma read_line_skip st l : length l <= 2 -> read_line st l = st.
Proof.
  intros H. unfold read_line.
  destruct (Nat.leb_spec (length l) 2) as [_|H']; [reflexivity | lia].
Qed.

Lemma read_line_fst st l :
  2 < length l ->
  fst (read_line st l) = fst (insert (fst st) (take (length l - 2) l) []).
Proof.
  intros H. unfold read_line.
  destruct (Nat.leb_spec (length l) 2) as [H'|_]; [lia|].
  destruct (insert _ _ _) as [r [|m ms]]; reflexivity.
Qed.

Lemma read_line_snd st l :
  2 < length l ->
  snd (read_line st l) =
  match snd (insert (fst st) (take (length l - 2) l) []) with
  | [] => snd st
  | m :: ms => Pending (strdup l) (m :: ms) :: snd st
  end.
Proof.
  intros H. unfold read_line.
  destruct (Nat.leb_spec (length l) 2) as [H'|_]; [lia|].
  destruct (insert _ _ _) as [r [|m ms]]; reflexivity.
Qed.

Lemma take_line_nonempty (l : cstring) : 2 < length l -> take (length l - 2) l <> [].
Proof.
  intros H E. apply (f_equal length) in E. rewrite length_take in E. cbn in E. lia.
Qed.

(** The loop keeps every node at [NBCHAR] slots and never marks the root. *)
Lemma read_line_inv st l :
  wf_trie (fst st) /\ word_end (fst st) = false ->
  wf_trie (fst (read_line st l)) /\ word_end (fst (read_line st l)) = false.
Proof.
  intros [Hwf Hend].
  destruct (Nat.le_gt_cases (length l) 2) as [H|H].
  - rewrite read_line_skip by assumption. auto.
  - rewrite read_line_fst by assumption. split.
    + apply wf_insert. assumption.
    + rewrite word_end_insert by (apply take_line_nonempty; assumption). assumption.
Qed.

Lemma fold_read_line_inv lines st :
  wf_trie (fst st) /\ word_end (fst st) = false ->
  wf_trie (fst (fold_left read_line lines st)) /\
  word_end (fst (fold_left read_line lines st)) = false.
Proof.
  revert st. induction lines as [|l lines IH]; intros st H; [assumption|].
  cbn [fold_left]. apply IH, read_line_inv, H.
Qed.

Lemma read_lines_inv lines :
  wf_trie (fst (read_lines lines)) /\ word_end (fst (read_lines lines)) = false.
Proof. apply fold_read_line_inv. split; [apply wf_calloc | reflexivity]. Qed.

(** The pending records are exactly those of the lines whose insertion
    returned a non-empty missing list. *)
Lemma In_fold_read_line lines st r :
  In r (snd (fold_left read_line lines st)) <->
  In r (snd st) \/
  exists l1 l l2,
    lines = l1 ++ l :: l2 /\ 2 < length l /\
    missing r <> [] /\
    r = Pending (strdup l)
          (snd (insert (fst (fold_left read_line l1 st)) (take (length l - 2) l) [])).
Proof.
  revert st. induction lines as [|x lines IH]; intros st.
  - cbn. split; [tauto|]. intros [H|(l1 & l & l2 & H & _)]; [assumption|].
    destruct l1; discriminate.
  - cbn [fold_left]. rewrite IH. split.
    + intros [H|(l1 & l & l2 & -> & Hl & Hm & Hr)].
      * destruct (Nat.le_gt_cases (length x) 2) as [Hx|Hx].
        -- rewrite read_line_skip in H by assumption. tauto.
        -- rewrite read_line_snd in H by assumption.
           destruct (snd (insert (fst st) (take (length x - 2) x) [])) as [|m ms] eqn:E;
             [tauto|].
           destruct H as [<-|H]; [|tauto].
           right. exists [], x, lines. cbn [fold_left app missing].
           rewrite E. repeat split; [assumption | discriminate].
      * right. exists (x :: l1), l, l2. auto.
    + intros [H|(l1 & l & l2 & Hlines & Hl & Hm & Hr)].
      * left. destruct (Nat.le_gt_cases (length x) 2) as [Hx|Hx].
        -- rewrite read_line_skip by assumption. assumption.
        -- rewrite read_line_snd by assumption.
           destruct (snd (insert _ _ _)); [|right]; assumption.
      * destruct l1 as [|y l1]; injection Hlines as <- ->.
        -- left. cbn [fold_left] in Hr. rewrite read_line_snd by assumption.
           subst r. cbn [missing] in Hm.
           destruct (snd (insert _ _ _)); [congruence | left; reflexivity].
        -- right. exists l1, l, l2. auto.
Qed.

Lemma In_pending lines r :
  In r (snd (read_lines lines)) <->
  exists l1 l l2,
    lines = l1 ++ l :: l2 /\ 2 < length l /\
    missing r <> [] /\
    r = Pending (strdup l)
          (snd (insert (fst (read_lines l1)) (take (length l - 2) l) [])).
Proof.
  unfold read_lines. rewrite In_fold_read_line. cbn [snd In]. tauto.
Qed.

(** ** The dictionary of a file of lower-case words *)

Lemma file_of_snoc ws w : file_of (ws ++ [w]) = file_of ws ++ [line_of w].
Proof. unfold file_of. rewrite map_app. reflexivity. Qed.

Lemma read_line_word st w :
  w <> [] ->
  fst (read_line st (line_of w)) = fst (insert (fst st) w []) /\
  snd (read_line st (line_of w)) =
    match snd (insert (fst st) w []) with
    | [] => snd st
    | m :: ms => Pending (strdup (line_of w)) (m :: ms) :: snd st
    end.
Proof.
  intros Hw.
  assert (2 < length (line_of w)) as Hlen
    by (rewrite length_line_of; destruct w; [congruence | cbn; lia]).
  rewrite read_line_fst, read_line_snd by assumption.
  rewrite take_line_of. auto.
Qed.

Lemma read_line_empty_word st : read_line st (line_of []) = st.
Proof. reflexivity. Qed.

(** The finished trie holds exactly the non-empty words of the file. *)
Lemma memberb_read_lines ws p :
  Forall lowercase ws ->
  memberb (fst (read_lines (file_of ws))) p = true <-> In p ws /\ p <> [].
Proof.
  induction ws as [|w ws IH] using rev_ind; intros Hlow.
  - cbn. rewrite memberb_calloc. split; [discriminate | tauto].
  - apply Forall_app in Hlow as [Hws Hw]. apply Forall_cons_1 in Hw as [Hw _].
    rewrite file_of_snoc, read_lines_snoc, in_app_iff. cbn [In].
    destruct w as [|c w].
    + rewrite read_line_empty_word, IH by assumption.
      split; [tauto|]. intros [[H|[H|[]]] Hp]; [tauto | congruence].
    + destruct (read_line_word (read_lines (file_of ws)) (c :: w)) as [-> _];
        [discriminate|].
      rewrite memberb_insert by (first [apply read_lines_inv | assumption]).
      rewrite IH by assumption. split.
      * intros [[H1 H2]| ->]; [tauto|]. split; [tauto | discriminate].
      * intros [[H|[H|[]]] Hp]; [tauto | right; congruence].
Qed.

(** ** The verification pass as a fold *)

Lemma length_c_str s : length (c_str s) <= length s.
Proof.
  induction s as [|c s IH]; cbn; [lia|].
  destruct (Ascii.eqb c NUL); cbn; lia.
Qed.

Lemma check_missing_matched fuel root w ms st :
  check_missing fuel root w ms true st = Some st.
Proof. induction ms as [|m ms IH]; [reflexivity | exact IH]. Qed.

Lemma matchesb_total fuel root m :
  word_end root = false -> 2 * length m + 1 <= fuel ->
  is_in_trie fuel root (Some root) (take (strlen m) m)
  = Some (matchesb fuel root m).
Proof.
  intros Hroot Hf. unfold matchesb.
  destruct (is_in_trie_total root Hroot fuel (Some root) (take (strlen m) m))
    as [[|] ->]; [|reflexivity..].
  unfold cost. rewrite Hroot, take_strlen.
  pose proof (length_c_str m). lia.
Qed.

Lemma check_missing_eq fuel root w ms st :
  word_end root = false ->
  Forall (fun m : cstring => 2 * length m + 1 <= fuel) ms ->
  check_missing fuel root w ms false st =
  Some (if existsb (matchesb fuel root) ms then confirm st w else st).
Proof.
  intros Hroot. induction 1 as [|m ms Hm _ IH]; [reflexivity|].
  cbn [check_missing existsb].
  rewrite matchesb_total by assumption.
  destruct (matchesb fuel root m); cbn [orb].
  - apply check_missing_matched.
  - exact IH.
Qed.

Lemma check_pending_eq fuel root pending st :
  word_end root = false ->
  Forall (fun r => Forall (fun m : cstring => 2 * length m + 1 <= fuel) (missing r))
    pending ->
  check_pending fuel root pending st =
  Some (fold_left confirm (counted fuel root pending) st).
Proof.
  intros Hroot H. revert st. induction H as [|r pending Hr _ IH]; intros st;
    [reflexivity|].
  cbn [check_pending]. rewrite check_missing_eq by assumption.
  rewrite IH. unfold counted, rec_matches. cbn [List.filter].
  destruct (existsb (matchesb fuel root) (missing r)); reflexivity.
Qed.

(** Every suffix on a missing list is shorter than its line. *)
Lemma pending_fuel fuel lines :
  fuel_ok fuel lines ->
  Forall (fun r => Forall (fun m : cstring => 2 * length m + 1 <= fuel) (missing r))
    (snd (read_lines lines)).
Proof.
  intros Hok. apply List.Forall_forall. intros r Hr.
  apply In_pending in Hr as (l1 & l & l2 & -> & Hl & _ & ->). cbn [missing].
  apply Forall_app in Hok as [_ Hok]. apply Forall_cons_1 in Hok as [Hok _].
  apply List.Forall_forall. intros m Hm.
  apply In_missing_insert in Hm as [[]|(p & s' & Hw & _ & -> & _)].
  apply (f_equal length) in Hw. rewrite length_take, length_app in Hw.
  pose proof (length_c_str s'). lia.
Qed.

(** The program returns, and its output is the ranking of the confirmed
    words. *)
Lemma main_eq fuel lines :
  fuel_ok fuel lines ->
  main fuel lines =
  Some (results_of (fold_left confirm (confirmed fuel lines) ranking_init)).
Proof.
  intros Hok. unfold main, confirmed.
  pose proof (pending_fuel fuel lines Hok) as Hp.
  destruct (read_lines_inv lines) as [_ Hroot].
  destruct (read_lines lines) as [root pending]. cbn [fst snd] in *.
  rewrite check_pending_eq by assumption. reflexivity.
Qed.

Lemma fuel_ok_mono fuel fuel' lines :
  fuel_ok fuel lines -> fuel <= fuel' -> fuel_ok fuel' lines.
Proof.
  unfold fuel_ok. intros H Hle. eapply Forall_impl; [exact H|].
  cbn. intros; lia.
Qed.

(** With enough fuel the matcher's verdicts, hence the confirmed words, no
    longer depend on the fuel. *)
Lemma matchesb_fuel fuel fuel' root m :
  word_end root = false -> 2 * length m + 1 <= fuel -> fuel <= fuel' ->
  matchesb fuel' root m = matchesb fuel root m.
Proof.
  intros Hroot Hf Hle.
  pose proof (matchesb_total fuel root m Hroot Hf) as H.
  apply (is_in_trie_mono _ fuel') in H; [|assumption].
  unfold matchesb at 1. rewrite H. destruct (matchesb fuel root m); reflexivity.
Qed.

(** ** Counting and ranking *)

Lemma total_confirm st w : total (confirm st w) = ((total st + 1) mod UINT_MOD)%Z.
Proof.
  unfold confirm. destruct (longest_len st <? strlen w); [reflexivity|].
  destruct (oldlongest_len st <? strlen w); reflexivity.
Qed.

Lemma total_fold_confirm ws st :
  (0 <= total st < UINT_MOD)%Z ->
  total (fold_left confirm ws st) =
  ((total st + Z.of_nat (length ws)) mod UINT_MOD)%Z.
Proof.
  revert st. induction ws as [|w ws IH]; intros st Hst.
  - cbn. rewrite Z.add_0_r, Z.mod_small; [reflexivity | assumption].
  - cbn [fold_left length]. rewrite IH, total_confirm.
    + rewrite Zplus_mod_idemp_l. f_equal. lia.
    + rewrite total_confirm. apply Z.mod_pos_bound. reflexivity.
Qed.

Lemma total_ranking ws :
  total (fold_left confirm ws ranking_init) = (Z.of_nat (length ws) mod UINT_MOD)%Z.
Proof. rewrite total_fold_confirm; [reflexivity | cbn; unfold UINT_MOD; lia]. Qed.

Lemma rank_inv_init : rank_inv ranking_init.
Proof. split; cbn; unfold UINT_MOD; lia. Qed.

Lemma lens_confirm st w : lens (confirm st w) = lens_step (lens st) (strlen w).
Proof.
  unfold confirm, lens, lens_step; cbn [fst snd].
  destruct (longest_len st <? strlen w); [reflexivity|].
  destruct (oldlongest_len st <? strlen w); reflexivity.
Qed.

Lemma rank_inv_confirm st w : rank_inv st -> rank_inv (confirm st w).
Proof.
  intros [Ho Hl Hs Ht].
  assert (0 <= (total st + 1) mod UINT_MOD < UINT_MOD)%Z as Ht'
    by (apply Z.mod_pos_bound; reflexivity).
  unfold confirm, strdup.
  destruct (Nat.ltb_spec (longest_len st) (strlen w)) as [H1|H1];
    [|destruct (Nat.ltb_spec (oldlongest_len st) (strlen w)) as [H2|H2]];
    split; cbn; try assumption; try lia; unfold strlen in *; lia.
Qed.

Lemma rank_inv_fold ws st : rank_inv st -> rank_inv (fold_left confirm ws st).
Proof.
  revert st. induction ws as [|w ws IH]; intros st H; [assumption|].
  cbn [fold_left]. apply IH, rank_inv_confirm, H.
Qed.

Lemma lens_fold ws st :
  lens (fold_left confirm ws st) = fold_left lens_step (map strlen ws) (lens st).
Proof.
  revert st. induction ws as [|w ws IH]; intros st; [reflexivity|].
  cbn [fold_left map]. rewrite IH, lens_confirm. reflexivity.
Qed.

Lemma lens_step_order ab n : snd ab <= fst ab -> snd (lens_step ab n) <= fst (lens_step ab n).
Proof.
  unfold lens_step. intros H.
  destruct (Nat.ltb_spec (fst ab) n); [cbn; lia|].
  destruct (Nat.ltb_spec (snd ab) n); cbn; lia.
Qed.

(** Two ranking steps commute on the lengths: the pass keeps the two
    largest lengths it has seen. *)
Lemma lens_step_comm ab n m :
  snd ab <= fst ab ->
  lens_step (lens_step ab n) m = lens_step (lens_step ab m) n.
Proof.
  destruct ab as [a b]. unfold lens_step; cbn [fst snd]. intros H.
  destruct (Nat.ltb_spec a n), (Nat.ltb_spec a m), (Nat.ltb_spec b n),
    (Nat.ltb_spec b m); cbn [fst snd];
    repeat match goal with
    | |- context [?x <? ?y] => destruct (Nat.ltb_spec x y); cbn [fst snd]
    end;
    try lia; f_equal; lia.
Qed.

Lemma lens_fold_perm l l' ab :
  Permutation l l' -> snd ab <= fst ab ->
  fold_left lens_step l ab = fold_left lens_step l' ab.
Proof.
  intros Hp. revert ab. induction Hp as [|x l l' _ IH|x y l|l l' l'' _ IH1 _ IH2];
    intros ab Hab.
  - reflexivity.
  - cbn [fold_left]. apply IH, lens_step_order, Hab.
  - cbn [fold_left]. rewrite lens_step_comm by assumption. reflexivity.
  - rewrite IH1 by assumption. apply IH2. assumption.
Qed.

Lemma lens_step_mono ab n :
  snd ab <= fst ab ->
  fst ab <= fst (lens_step ab n) /\ snd ab <= snd (lens_step ab n) /\
  n <= fst (lens_step ab n) /\
  (0 < fst ab -> 0 < n -> 0 < snd (lens_step ab n)).
Proof.
  unfold lens_step. intros H.
  destruct (Nat.ltb_spec (fst ab) n); [cbn; lia|].
  destruct (Nat.ltb_spec (snd ab) n); cbn; lia.
Qed.

Lemma lens_fold_mono l ab :
  snd ab <= fst ab ->
  fst ab <= fst (fold_left lens_step l ab) /\
  snd ab <= snd (fold_left lens_step l ab).
Proof.
  revert ab. induction l as [|n l IH]; intros ab H; [cbn; lia|].
  cbn [fold_left].
  destruct (lens_step_mono ab n H) as (H1 & H2 & _).
  destruct (IH _ (lens_step_order ab n H)). lia.
Qed.

(** After two confirmed words of positive length both slots are filled. *)
Lemma two_confirmed_fill ws :
  Forall (fun w => 0 < strlen w) ws -> 2 <= length ws ->
  longest (fold_left confirm ws ranking_init) <> None /\
  oldlongest (fold_left confirm ws ranking_init) <> None.
Proof.
  intros Hpos Hlen.
  pose proof (rank_inv_fold ws _ rank_inv_init) as [Ho Hl Hs _].
  assert (0 < oldlongest_len (fold_left confirm ws ranking_init)) as Hold.
  { change (0 < snd (lens (fold_left confirm ws ranking_init))).
    rewrite lens_fold.
    destruct ws as [|w1 [|w2 ws]]; [cbn in Hlen; lia.. |].
    apply Forall_cons_1 in Hpos as [H1 Hpos]. apply Forall_cons_1 in Hpos as [H2 _].
    cbn [map fold_left].
    set (ab1 := lens_step (lens ranking_init) (strlen w1)).
    assert (snd ab1 <= fst ab1) as Hab1 by (apply lens_step_order; cbn; lia).
    assert (0 < fst ab1) as Hfst
      by (pose proof (lens_step_mono (lens ranking_init) (strlen w1)) as H;
          cbn in H; fold ab1 in H; lia).
    destruct (lens_step_mono ab1 (strlen w2) Hab1) as (_ & _ & _ & Hsnd).
    pose proof (lens_fold_mono (map strlen ws) _ (lens_step_order ab1 (strlen w2) Hab1)).
    lia. }
  split.
  - destruct (longest _); [discriminate | cbn in Hl; lia].
  - destruct (oldlongest _); [discriminate | cbn in Hs; lia].
Qed.

(** The word of a pending record begins with a letter of the alphabet. *)
Lemma pending_word_nonempty lines r :
  In r (snd (read_lines lines)) -> 0 < strlen (word r).
Proof.
  intros Hr. apply In_pending in Hr as (l1 & l & l2 & _ & Hl & Hm & ->).
  cbn [missing word] in *.
  destruct (snd (insert (fst (read_lines l1)) (take (length l - 2) l) [])) as [|m ms] eqn:E;
    [congruence|].
  assert (In m (snd (insert (fst (read_lines l1)) (take (length l - 2) l) []))) as Hin
    by (rewrite E; left; reflexivity).
  apply In_missing_insert in Hin as [[]|(p & s' & Hw & _ & _ & Hp)].
  destruct (read_lines_inv l1) as [_ Hroot].
  destruct p as [|c p]; [rewrite memberb_nil in Hp; congruence|].
  unfold memberb in Hp; cbn [walk] in Hp.
  destruct (get_child (fst (read_lines l1)) (INDEX c)) as [t|] eqn:Ech; [|discriminate].
  apply get_child_in_range in Ech.
  destruct l as [|c' l']; [cbn in Hl; lia|].
  assert (c' = c) as ->.
  { destruct (length (c' :: l') - 2) eqn:En; [lia|].
    cbn in Hw. congruence. }
  unfold strlen, strdup. rewrite c_str_idem. cbn [c_str].
  rewrite (is_lower_not_NUL c Ech). cbn. lia.
Qed.

(** ** Fuel and the whole program *)

Lemma check_missing_mono fuel fuel' root w ms matched st r :
  check_missing fuel root w ms matched st = Some r -> fuel <= fuel' ->
  check_missing fuel' root w ms matched st = Some r.
Proof.
  intros H Hle. revert matched st H.
  induction ms as [|m ms IH]; intros matched st H; [assumption|].
  cbn [check_missing] in *. destruct matched; [apply IH; assumption|].
  destruct (is_in_trie fuel root (Some root) (take (strlen m) m)) as [b|] eqn:E;
    [|discriminate].
  rewrite (is_in_trie_mono _ _ _ _ _ _ E Hle).
  destruct b; apply IH; assumption.
Qed.

Lemma check_pending_mono fuel fuel' root pending st r :
  check_pending fuel root pending st = Some r -> fuel <= fuel' ->
  check_pending fuel' root pending st = Some r.
Proof.
  intros H Hle. revert st H.
  induction pending as [|p pending IH]; intros st H; [assumption|].
  cbn [check_pending] in *.
  destruct (check_missing fuel root (word p) (missing p) false st) as [st'|] eqn:E;
    [|discriminate].
  rewrite (check_missing_mono _ _ _ _ _ _ _ _ E Hle). apply IH. assumption.
Qed.

(** More fuel never changes an output that the program has produced. *)
Lemma main_mono fuel fuel' lines out :
  main fuel lines = Some out -> fuel <= fuel' -> main fuel' lines = Some out.
Proof.
  unfold main. destruct (read_lines lines) as [root pending]. intros H Hle.
  destruct (check_pending fuel root pending ranking_init) as [st|] eqn:E;
    [|discriminate].
  rewrite (check_pending_mono _ _ _ _ _ _ E Hle). assumption.
Qed.

Lemma fuel_ok_exists fuel lines : exists fuel', fuel <= fuel' /\ fuel_ok fuel' lines.
Proof.
  induction lines as [|l lines (f & Hle & Hok)].
  - exists fuel. split; [lia | constructor].
  - exists (f + 2 * length l). split; [lia|]. constructor; [lia|].
    eapply fuel_ok_mono; [exact Hok | lia].
Qed.

Lemma confirmed_fuel fuel fuel' lines :
  fuel_ok fuel lines -> fuel <= fuel' ->
  confirmed fuel' lines = confirmed fuel lines.
Proof.
  intros Hok Hle. unfold confirmed, counted. f_equal.
  pose proof (pending_fuel fuel lines Hok) as Hp.
  destruct (read_lines_inv lines) as [_ Hroot].
  induction Hp as [|r pending Hr _ IH]; [reflexivity|].
  cbn [List.filter]. rewrite IH.
  assert (rec_matches fuel' (fst (read_lines lines)) r
          = rec_matches fuel (fst (read_lines lines)) r) as ->; [|reflexivity].
  unfold rec_matches. induction Hr as [|m ms Hm _ IHm]; [reflexivity|].
  cbn [existsb]. rewrite IHm, (matchesb_fuel fuel fuel') by assumption. reflexivity.
Qed.

Lemma In_confirmed fuel lines l :
  In l (confirmed fuel lines) <->
  exists r, In r (snd (read_lines lines)) /\ word r = l /\
    exists m, In m (missing r) /\ matchesb fuel (fst (read_lines lines)) m = true.
Proof.
  unfold confirmed, counted, rec_matches. rewrite in_map_iff. split.
  - intros (r & Hw & Hr). apply filter_In in Hr as [Hr Hm].
    apply existsb_exists in Hm. eauto.
  - intros (r & Hr & Hw & Hm). exists r. split; [assumption|].
    apply filter_In. split; [assumption|]. apply existsb_exists. assumption.
Qed.

Lemma confirmed_nonempty fuel lines :
  Forall (fun w => 0 < strlen w) (confirmed fuel lines).
Proof.
  apply List.Forall_forall. intros l Hl.
  apply In_confirmed in Hl as (r & Hr & <- & _).
  eapply pending_word_nonempty. eassumption.
Qed.

(** Whenever the counter shows two or more, both ranking slots hold a
    word. *)
Lemma slots_filled fuel lines out :
  main fuel lines = Some out -> (2 <= res_total out)%Z ->
  res_longest out <> None /\ res_oldlongest out <> None.
Proof.
  intros Hmain Htot.
  destruct (fuel_ok_exists fuel lines) as (fuel' & Hle & Hok).
  apply (main_mono _ fuel') in Hmain; [|assumption].
  rewrite main_eq in Hmain by assumption. injection Hmain as <-.
  cbn [results_of res_longest res_oldlongest res_total] in *.
  rewrite total_ranking in Htot.
  apply two_confirmed_fill; [apply confirmed_nonempty|].
  destruct (Nat.le_gt_cases 2 (length (confirmed fuel' lines))) as [H|H];
    [assumption|].
  rewrite Z.mod_small in Htot by (unfold UINT_MOD; lia). lia.
Qed.

Lemma run_with_fuel fuel0 fuel lines :
  fuel_ok fuel0 lines -> fuel0 <= fuel ->
  main fuel lines = main fuel0 lines /\
  confirmed fuel lines = confirmed fuel0 lines.
Proof.
  intros Hok Hle. split; [|apply confirmed_fuel; assumption].
  rewrite (main_eq fuel0) by assumption.
  rewrite (main_eq fuel) by (eapply fuel_ok_mono; eassumption).
  rewrite (confirmed_fuel fuel0 fuel) by assumption. reflexivity.
Qed.

Lemma main_no_pending fuel lines :
  snd (read_lines lines) = [] -> main fuel lines = Some (Results None None 0).
Proof.
  unfold main. destruct (read_lines lines) as [root pending]; cbn [snd].
  intros ->. reflexivity.
Qed.

(** * The ranking step and the verification pass *)

(** C4: a confirmed word longer than the longest demotes the longest to
    second-longest and takes its place; otherwise a word longer than the
    second-longest takes the second slot; a word exactly as long as the
    holder of a slot leaves that slot as it is.  The second length never
    exceeds the first: the step keeps it so, and the pass starts from 0
    and 0. *)
Theorem C4_ranking_update (st : ranking) (w : cstring) :
  (longest_len st < strlen w ->
     longest (confirm st w) = Some (strdup w) /\
     longest_len (confirm st w) = strlen w /\
     oldlongest (confirm st w) = longest st /\
     oldlongest_len (confirm st w) = longest_len st)
  /\ (strlen w <= longest_len st -> oldlongest_len st < strlen w ->
     longest (confirm st w) = longest st /\
     longest_len (confirm st w) = longest_len st /\
     oldlongest (confirm st w) = Some (strdup w) /\
     oldlongest_len (confirm st w) = strlen w)
  /\ (strlen w = longest_len st ->
     longest (confirm st w) = longest st /\
     longest_len (confirm st w) = longest_len st)
  /\ (oldlongest_len st <= longest_len st -> strlen w = oldlongest_len st ->
     oldlongest (confirm st w) = oldlongest st /\
     oldlongest_len (confirm st w) = oldlongest_len st)
  /\ (strlen w <= longest_len st -> strlen w <= oldlongest_len st ->
     longest (confirm st w) = longest st /\
     oldlongest (confirm st w) = oldlongest st /\
     lens (confirm st w) = lens st)
  /\ (oldlongest_len st <= longest_len st ->
     oldlongest_len (confirm st w) <= longest_len (confirm st w)).
Proof.
  unfold confirm, lens.
  destruct (Nat.ltb_spec (longest_len st) (strlen w)) as [H1|H1];
    [|destruct (Nat.ltb_spec (oldlongest_len st) (strlen w)) as [H2|H2]];
    cbn; repeat split; intros; try reflexivity; lia.
Qed.

Lemma C4_ranking_update_witness :
  let st := Ranking (Some (line_of (str "aaa"))) 5 (Some (line_of (str "a"))) 3 2 in
  strlen (line_of (str "aa")) <= longest_len st /\
  oldlongest_len st < strlen (line_of (str "aa")) /\
  oldlongest (confirm st (line_of (str "aa"))) = Some (line_of (str "aa")) /\
  longest (confirm st (line_of (str "aa"))) = Some (line_of (str "aaa")).
Proof.
  intros st.
  assert (strlen (line_of (str "aa")) <= longest_len st) as H1 by (cbn; lia).
  assert (oldlongest_len st < strlen (line_of (str "aa"))) as H2 by (cbn; lia).
  destruct (C4_ranking_update st (line_of (str "aa"))) as (_ & H & _).
  destruct (H H1 H2) as (Hl & _ & Ho & _).
  exact (conj H1 (conj H2 (conj Ho Hl))).
Defined.

(** C5: a pending record reaches [confirm], and with it [total++], exactly
    once if one of its suffixes matches (at the first such suffix, the later
    ones being skipped) and not at all if none does. *)
Theorem C5_record_counted_once (fuel : nat) (root : trie) (w : cstring)
    (ms : missing_list) (st : ranking) :
  word_end root = false ->
  Forall (fun m : cstring => 2 * length m + 1 <= fuel) ms ->
  check_missing fuel root w ms false st =
    Some (if existsb (matchesb fuel root) ms then confirm st w else st)
  /\ total (confirm st w) = ((total st + 1) mod UINT_MOD)%Z
  /\ (forall l1 m l2, ms = l1 ++ m :: l2 ->
        Forall (fun m' => matchesb fuel root m' = false) l1 ->
        matchesb fuel root m = true ->
        check_missing fuel root w ms false st =
          check_missing fuel root w l2 true (confirm st w) /\
        check_missing fuel root w l2 true (confirm st w) = Some (confirm st w))
  /\ (Forall (fun m => matchesb fuel root m = false) ms ->
        check_missing fuel root w ms false st = Some st).
Proof.
  intros Hroot Hfuel. split; [apply check_missing_eq; assumption|].
  split; [apply total_confirm|]. split.
  - intros l1 m l2 -> Hl1 Hm. split; [|apply check_missing_matched].
    apply Forall_app in Hfuel as [Hf1 Hf2]. apply Forall_cons_1 in Hf2 as [Hfm _].
    induction Hl1 as [|m' l1 Hm' _ IH]; cbn [app check_missing].
    + rewrite matchesb_total, Hm by assumption. reflexivity.
    + apply Forall_cons_1 in Hf1 as [Hfm' Hf1].
      rewrite matchesb_total, Hm' by assumption. apply IH. assumption.
  - intros Hnone. rewrite check_missing_eq by assumption.
    assert (existsb (matchesb fuel root) ms = false) as ->; [|reflexivity].
    induction Hnone as [|m l Hm _ IH]; [reflexivity|].
    apply Forall_cons_1 in Hfuel as [_ Hfuel].
    cbn [existsb]. rewrite Hm, IH by assumption. reflexivity.
Qed.

Lemma C5_record_counted_once_witness :
  check_missing 10 (fst (read_lines scenario_B)) (line_of (str "aaa"))
    [str "a"; str "aa"] false ranking_init =
  Some (confirm ranking_init (line_of (str "aaa")))
  /\ existsb (matchesb 10 (fst (read_lines scenario_B))) [str "aa"] = true.
Proof.
  assert (word_end (fst (read_lines scenario_B)) = false) as Hroot
    by (vm_compute; reflexivity).
  assert (Forall (fun m : cstring => 2 * length m + 1 <= 10) [str "a"; str "aa"])
    as Hfuel by (repeat constructor; cbn; lia).
  destruct (C5_record_counted_once 10 (fst (read_lines scenario_B))
              (line_of (str "aaa")) [str "a"; str "aa"] ranking_init Hroot Hfuel)
    as (H & _).
  split; [exact H | vm_compute; reflexivity].
Defined.

(** C6, as the spec has it, fails: no run shows a total of two or more
    with the second-longest slot still empty. *)
Lemma C6_second_slot_never_left_empty :
  ~ exists fuel lines out,
      main fuel lines = Some out /\ (2 <= res_total out)%Z /\
      res_oldlongest out = None.
Proof.
  intros (fuel & lines & out & Hmain & Htot & Hnone).
  destruct (slots_filled fuel lines out Hmain Htot) as [_ H]. contradiction.
Qed.

(** C6, amended: whenever two or more words are counted, the second word
    confirmed fills whichever slot the comparisons leave to it, so both the
    longest and the second-longest outputs are words and none is the
    none-found marker. *)
Theorem C6_two_confirmed_fill_both_slots (fuel : nat) (lines : list cstring)
    (out : results) :
  main fuel lines = Some out -> (2 <= res_total out)%Z ->
  res_longest out <> None /\ res_oldlongest out <> None.
Proof. apply slots_filled. Qed.

Lemma C6_two_confirmed_fill_both_slots_witness :
  main 10 scenario_B =
    Some (Results (Some (line_of (str "aaa"))) (Some (line_of (str "aa"))) 2)
  /\ Some (line_of (str "aa")) <> None.
Proof.
  assert (main 10 scenario_B =
    Some (Results (Some (line_of (str "aaa"))) (Some (line_of (str "aa"))) 2))
    as Hmain by (vm_compute; reflexivity).
  split; [exact Hmain|].
  refine (proj2 (C6_two_confirmed_fill_both_slots 10 scenario_B _ Hmain _)).
  cbn. lia.
Defined.

(** * Scenarios *)

(** C7: on the file [a], [aa], [aaa] the program confirms [aaa] (its
    missing list is [a], [aa], the suffixes after the prefixes [aa] and [a])
    and [aa] (missing list [a]) and prints longest [aaa], second-longest
    [aa] and total 2; the stored and printed strings are the lines, that is
    the words with their line terminator.  With only [a] in the dictionary
    the matcher accepts [aaa] by restarting at the root and using [a]
    again. *)
Theorem C7_scenario_B (fuel : nat) :
  10 <= fuel ->
  main fuel scenario_B =
    Some (Results (Some (line_of (str "aaa"))) (Some (line_of (str "aa"))) 2)
  /\ confirmed fuel scenario_B = [line_of (str "aaa"); line_of (str "aa")]
  /\ snd (read_lines scenario_B) =
       [Pending (line_of (str "aaa")) [str "a"; str "aa"];
        Pending (line_of (str "aa")) [str "a"]]
  /\ is_in_trie fuel (fst (read_lines one_a)) (Some (fst (read_lines one_a)))
       (str "aaa") = Some true.
Proof.
  intros Hf.
  assert (fuel_ok 10 scenario_B) as Hok by (repeat constructor).
  destruct (run_with_fuel 10 fuel scenario_B Hok Hf) as [-> ->].
  split; [vm_compute; reflexivity|].
  split; [vm_compute; reflexivity|].
  split; [vm_compute; reflexivity|].
  apply (is_in_trie_mono 10); [vm_compute; reflexivity | assumption].
Qed.

Lemma C7_scenario_B_witness :
  main 10 scenario_B =
    Some (Results (Some (line_of (str "aaa"))) (Some (line_of (str "aa"))) 2).
Proof. exact (proj1 (C7_scenario_B 10 (le_n 10))). Defined.

(** C8: with no line at all, and with any single line (so with the one
    word [hello]), nothing is pending: both slots stay at the none-found
    marker and the total is 0. *)
Theorem C8_empty_and_single_word (fuel : nat) (l : cstring) :
  main fuel [] = Some (Results None None 0)
  /\ main fuel [l] = Some (Results None None 0)
  /\ main fuel (file_of [str "hello"]) = Some (Results None None 0).
Proof.
  assert (forall x, main fuel [x] = Some (Results None None 0)) as H.
  { intros x. apply main_no_pending. unfold read_lines; cbn [fold_left].
    destruct (Nat.le_gt_cases (length x) 2) as [Hx|Hx].
    - rewrite read_line_skip by assumption. reflexivity.
    - rewrite read_line_snd by assumption. cbn [fst snd].
      rewrite insert_calloc_missing. reflexivity. }
  split; [reflexivity|]. split; apply H.
Qed.

(** C9: the root never ends a word.  On a file whose words (the lines
    without their last two characters) are lower-case, the root's flag is
    still 0 after any number of lines read; an insertion of a non-empty
    lower-case word leaves the flag of the node it starts from alone, and
    marks exactly the node at the end of the word's path; lines of at most
    two characters (nothing but the terminator) are skipped. *)
Theorem C9_root_never_ends_a_word (lines : list cstring) (k : nat) :
  Forall (fun l : cstring => 2 < length l -> lowercase (take (length l - 2) l))
    lines ->
  word_end (fst (read_lines (take k lines))) = false
  /\ (forall n w m,
        lowercase w -> w <> [] -> word_end (fst (insert n w m)) = word_end n)
  /\ (forall ws root,
        word_end root = false -> Forall lowercase ws ->
        Forall (fun w : cstring => w <> []) ws ->
        word_end (fold_left (fun n w => fst (insert n w [])) ws root) = false)
  /\ (forall n w m p,
        wf_trie n -> lowercase w ->
        memberb (fst (insert n w m)) p = true <-> memberb n p = true \/ p = w)
  /\ (forall st l, length l <= 2 -> read_line st l = st).
Proof.
  intros _.
  split; [apply read_lines_inv|].
  split; [intros n w m _; apply word_end_insert|].
  split; [|split; [apply memberb_insert | apply read_line_skip]].
  intros ws root Hroot _ Hws. revert root Hroot.
  induction Hws as [|w ws Hw _ IH]; intros root Hroot; [assumption|].
  cbn [fold_left]. apply IH. rewrite word_end_insert; assumption.
Qed.

Lemma C9_root_never_ends_a_word_witness :
  word_end (fst (read_lines (take 2 scenario_B))) = false
  /\ word_end (fold_left (fun n w => fst (insert n w [])) [str "a"; str "aa"]
       calloc_trie) = false.
Proof.
  assert (Forall (fun l : cstring =>
                    2 < length l -> lowercase (take (length l - 2) l)) scenario_B)
    as Hlow by (repeat (constructor; [intros _; repeat constructor|]); constructor).
  destruct (C9_root_never_ends_a_word scenario_B 2 Hlow) as (H1 & _ & H3 & _).
  split; [exact H1|].
  apply H3; [reflexivity | repeat constructor | repeat constructor; discriminate].
Defined.

(** C10: a word that occurs twice gets a pending record per occurrence,
    and every record with a matching suffix adds one to the total: on
    [ca], [t], [cat], [cat] the total is 2 for the single confirmed word
    [cat]. *)
Theorem C10_duplicates_counted_twice (fuel : nat) :
  10 <= fuel ->
  main fuel duplicated_cat =
    Some (Results (Some (line_of (str "cat"))) (Some (line_of (str "cat"))) 2)
  /\ snd (read_lines duplicated_cat) =
       [Pending (line_of (str "cat")) [str "t"];
        Pending (line_of (str "cat")) [str "t"]]
  /\ confirmed fuel duplicated_cat = [line_of (str "cat"); line_of (str "cat")]
  /\ length (nodup (List.list_eq_dec ascii_dec) (confirmed fuel duplicated_cat)) = 1
  /\ (forall lines f,
        fuel_ok f lines ->
        exists out, main f lines = Some out /\
          res_total out =
          (Z.of_nat (length (List.filter (rec_matches f (fst (read_lines lines)))
                               (snd (read_lines lines)))) mod UINT_MOD)%Z).
Proof.
  intros Hf.
  assert (fuel_ok 10 duplicated_cat) as Hok by (repeat constructor).
  destruct (run_with_fuel 10 fuel duplicated_cat Hok Hf) as [-> ->].
  split; [vm_compute; reflexivity|].
  split; [vm_compute; reflexivity|].
  split; [vm_compute; reflexivity|].
  split; [vm_compute; reflexivity|].
  intros lines f Hlines. eexists. split; [apply main_eq; assumption|].
  cbn [results_of res_total]. rewrite total_ranking.
  unfold confirmed, counted. rewrite length_map. reflexivity.
Qed.

Lemma C10_duplicates_counted_twice_witness :
  main 10 duplicated_cat =
    Some (Results (Some (line_of (str "cat"))) (Some (line_of (str "cat"))) 2)
  /\ length (nodup (List.list_eq_dec ascii_dec) (confirmed 10 duplicated_cat)) = 1.
Proof.
  destruct (C10_duplicates_counted_twice 10 (le_n 10)) as (H1 & _ & _ & H4 & _).
  exact (conj H1 H4).
Defined.

(** * The matcher on a finished trie *)

Lemma partition_of_ext (D D' : cstring -> Prop) k t :
  (forall q, q <> [] -> D q <-> D' q) ->
  partition_of D k t <-> partition_of D' k t.
Proof.
  intros H. unfold partition_of.
  split; intros (parts & Hc & Hk & Hall); exists parts; repeat split;
    try assumption; eapply Forall_impl; try exact Hall; cbn;
    intros q [Hq HD]; (split; [assumption|]); apply (H q Hq); assumption.
Qed.

Lemma partition_of_weaken (D : cstring -> Prop) k k' t :
  k' <= k -> partition_of D k t -> partition_of D k' t.
Proof. intros Hk (parts & Hc & Hl & Hall). exists parts. repeat split; [assumption | lia | assumption]. Qed.

Lemma partition_of_cons (D : cstring -> Prop) k p s :
  p <> [] -> D p -> partition_of D k s -> partition_of D (S k) (p ++ s).
Proof.
  intros Hp HD (parts & <- & Hk & Hall). exists (p :: parts).
  repeat split; [cbn; lia|]. constructor; [split|]; assumption.
Qed.

Lemma partition_of_lowercase (ws : list cstring) k t :
  Forall lowercase ws -> partition_of (fun p => In p ws) k t -> lowercase t.
Proof.
  intros Hws (parts & <- & _ & Hall).
  induction Hall as [|q parts [_ Hq] _ IH]; cbn; [constructor|].
  apply lowercase_app. split; [|assumption].
  rewrite List.Forall_forall in Hws. apply Hws. assumption.
Qed.

(** The dictionary of the trie built from a file is the set of its words. *)
Lemma partition_of_read_lines ws k t :
  Forall lowercase ws ->
  partition_of (fun q => memberb (fst (read_lines (file_of ws))) q = true) k t <->
  partition_of (fun q => In q ws) k t.
Proof.
  intros Hws. apply partition_of_ext. intros q Hq.
  rewrite memberb_read_lines by assumption. tauto.
Qed.

(** C1: on the trie built from a file of lower-case words, and with fuel
    for twice the length of the text, the matcher returns, and returns true
    exactly when the text is a concatenation of one or more non-empty
    words of the file; with no character left it returns the flag of the
    node it stands on. *)
Theorem C1_matcher_decides_segmentation (ws : list cstring) (text : cstring)
    (fuel : nat) :
  Forall lowercase ws -> text <> [] -> 2 * length text + 1 <= fuel ->
  (exists b,
     is_in_trie fuel (fst (read_lines (file_of ws)))
       (Some (fst (read_lines (file_of ws)))) text = Some b /\
     (b = true <-> partition_of (fun p => In p ws) 1 text))
  /\ (forall n,
        is_in_trie fuel (fst (read_lines (file_of ws))) (Some n) [] =
        Some (word_end n)).
Proof.
  intros Hws Htext Hfuel. split.
  - destruct (read_lines_inv (file_of ws)) as [_ Hroot].
    destruct (is_in_trie_root _ Hroot fuel text Hfuel) as (b & Hb & Hiff).
    exists b. split; [assumption|].
    rewrite Hiff. apply partition_of_read_lines. assumption.
  - intros n. destruct fuel as [|fuel]; [lia | reflexivity].
Qed.

Lemma C1_matcher_decides_segmentation_witness :
  exists b,
    is_in_trie 20 (fst (read_lines scenario_B)) (Some (fst (read_lines scenario_B)))
      (str "aaaaa") = Some b /\
    (b = true <->
     partition_of (fun p => In p [str "a"; str "aa"; str "aaa"]) 1 (str "aaaaa")).
Proof.
  refine (proj1 (C1_matcher_decides_segmentation
                   [str "a"; str "aa"; str "aaa"] (str "aaaaa") 20 _ _ _)).
  - repeat constructor.
  - discriminate.
  - cbn. lia.
Defined.

(** * Confirmed words *)

Lemma file_of_split ws L1 l L2 :
  file_of ws = L1 ++ l :: L2 ->
  exists ws1 w ws2,
    ws = ws1 ++ w :: ws2 /\ L1 = file_of ws1 /\ l = line_of w /\ L2 = file_of ws2.
Proof.
  unfold file_of. intros H.
  apply map_eq_app in H as (ws1 & r & -> & <- & H).
  apply map_eq_cons in H as (w & ws2 & -> & <- & <-).
  exists ws1, w, ws2. auto.
Qed.

Lemma line_of_long w : 2 < length (line_of w) <-> w <> [].
Proof.
  rewrite length_line_of. destruct w; cbn; split; intros; try congruence; lia.
Qed.

(** The pending records of a file of lower-case words. *)
Lemma In_pending_file ws r :
  Forall lowercase ws ->
  In r (snd (read_lines (file_of ws))) <->
  exists ws1 w ws2,
    ws = ws1 ++ w :: ws2 /\ w <> [] /\ missing r <> [] /\
    r = Pending (line_of w) (snd (insert (fst (read_lines (file_of ws1))) w [])).
Proof.
  intros Hws. rewrite In_pending. split.
  - intros (L1 & l & L2 & Hfile & Hl & Hm & ->).
    apply file_of_split in Hfile as (ws1 & w & ws2 & -> & -> & -> & ->).
    apply Forall_app in Hws as [_ Hws]. apply Forall_cons_1 in Hws as [Hw _].
    exists ws1, w, ws2. rewrite take_line_of in *. unfold strdup.
    rewrite c_str_line_of by assumption.
    repeat split; [apply line_of_long|]; assumption.
  - intros (ws1 & w & ws2 & -> & Hw & Hm & ->).
    apply Forall_app in Hws as [_ Hws]. apply Forall_cons_1 in Hws as [Hlow _].
    exists (file_of ws1), (line_of w), (file_of ws2).
    rewrite take_line_of. unfold strdup. rewrite c_str_line_of by assumption.
    repeat split; [|apply line_of_long|]; try assumption.
    unfold file_of. rewrite map_app. reflexivity.
Qed.

(** The missing list of a word: the suffixes left after the prefixes that
    are words read before it. *)
Lemma In_missing_file ws1 w m :
  Forall lowercase ws1 -> lowercase w ->
  In m (snd (insert (fst (read_lines (file_of ws1))) w [])) <->
  exists p, w = p ++ m /\ p <> [] /\ m <> [] /\ In p ws1.
Proof.
  intros Hws Hw. rewrite In_missing_insert. split.
  - intros [[]|(p & s & -> & Hs & -> & Hp)].
    apply lowercase_app in Hw as [_ Hlow].
    rewrite c_str_lowercase by assumption.
    apply memberb_read_lines in Hp as [Hin Hne]; [|assumption].
    exists p. auto.
  - intros (p & -> & Hp & Hm & Hin). right. exists p, m.
    apply lowercase_app in Hw as [_ Hlow].
    rewrite c_str_lowercase by assumption.
    repeat split; [assumption|]. apply memberb_read_lines; auto.
Qed.

Lemma matchesb_sound fuel root m :
  word_end root = false -> matchesb fuel root m = true ->
  partition_of (fun q => memberb root q = true) 1 (c_str m).
Proof.
  intros Hroot H. unfold matchesb in H. rewrite take_strlen in H.
  destruct (is_in_trie fuel root (Some root) (c_str m)) as [[|]|] eqn:E;
    try discriminate.
  apply completes_root; [assumption|]. eapply is_in_trie_sound; eassumption.
Qed.

Lemma matchesb_complete fuel root m :
  word_end root = false -> 2 * length m + 1 <= fuel ->
  partition_of (fun q => memberb root q = true) 1 (c_str m) ->
  matchesb fuel root m = true.
Proof.
  intros Hroot Hf H. unfold matchesb. rewrite take_strlen.
  rewrite (is_in_trie_complete root Hroot); [reflexivity | |].
  - unfold cost. rewrite Hroot. pose proof (length_c_str m). lia.
  - apply completes_root; assumption.
Qed.

(** A confirmed word is a word of the file that splits into a word read
    before it and a concatenation of words of the file. *)
Lemma confirmed_elim fuel ws l :
  Forall lowercase ws -> In l (confirmed fuel (file_of ws)) ->
  exists ws1 w ws2 p s,
    ws = ws1 ++ w :: ws2 /\ l = line_of w /\ w = p ++ s /\
    p <> [] /\ s <> [] /\ In p ws1 /\ partition_of (fun q => In q ws) 1 s.
Proof.
  intros Hws Hl.
  apply In_confirmed in Hl as (r & Hr & <- & m & Hm & Hmatch).
  apply In_pending_file in Hr as (ws1 & w & ws2 & -> & Hw & _ & ->); [|assumption].
  cbn [missing word] in *.
  pose proof Hws as Hws'.
  apply Forall_app in Hws' as [Hws1 Hrest]. apply Forall_cons_1 in Hrest as [Hlow _].
  apply In_missing_file in Hm as (p & -> & Hp & Hm & Hin); [| assumption..].
  destruct (read_lines_inv (file_of (ws1 ++ (p ++ m) :: ws2))) as [_ Hroot].
  apply matchesb_sound in Hmatch; [|assumption].
  apply lowercase_app in Hlow as [_ Hlowm].
  rewrite c_str_lowercase in Hmatch by assumption.
  apply partition_of_read_lines in Hmatch; [|assumption].
  exists ws1, (p ++ m), ws2, p, m. repeat split; assumption.
Qed.

(** Conversely such a word is confirmed, given fuel for the lines. *)
Lemma confirmed_intro fuel ws ws1 w ws2 p s :
  Forall lowercase ws -> fuel_ok fuel (file_of ws) ->
  ws = ws1 ++ w :: ws2 -> w = p ++ s -> p <> [] -> s <> [] -> In p ws1 ->
  partition_of (fun q => In q ws) 1 s ->
  In (line_of w) (confirmed fuel (file_of ws)).
Proof.
  intros Hws Hok -> -> Hp Hs Hin Hpart.
  pose proof Hws as Hws'.
  apply Forall_app in Hws' as [Hws1 Hrest]. apply Forall_cons_1 in Hrest as [Hlow _].
  assert (In s (snd (insert (fst (read_lines (file_of ws1))) (p ++ s) []))) as Hmiss
    by (apply In_missing_file; [assumption.. | exists p; auto]).
  apply In_confirmed.
  exists (Pending (line_of (p ++ s))
            (snd (insert (fst (read_lines (file_of ws1))) (p ++ s) []))).
  cbn [word missing]. split; [|split; [reflexivity|]].
  - apply In_pending_file; [assumption|]. exists ws1, (p ++ s), ws2.
    cbn [missing]. repeat split.
    + destruct p; [congruence | discriminate].
    + intros E. rewrite E in Hmiss. destruct Hmiss.
  - exists s. split; [assumption|].
    destruct (read_lines_inv (file_of (ws1 ++ (p ++ s) :: ws2))) as [_ Hroot].
    apply lowercase_app in Hlow as [_ Hlows].
    apply matchesb_complete; [assumption | |].
    + unfold fuel_ok, file_of in Hok. rewrite map_app in Hok.
      apply Forall_app in Hok as [_ Hok]. cbn [map] in Hok.
      apply Forall_cons_1 in Hok as [Hok _].
      rewrite length_line_of, length_app in Hok. lia.
    + rewrite c_str_lowercase by assumption.
      apply partition_of_read_lines; assumption.
Qed.

Lemma partition_of_replicate (D : cstring -> Prop) u k :
  u <> [] -> D u -> partition_of D k (concat (replicate k u)).
Proof.
  intros Hu HD. exists (replicate k u). repeat split.
  - rewrite length_replicate. lia.
  - apply List.Forall_forall. intros q Hq.
    apply list_elem_of_In, elem_of_replicate in Hq as [-> _]. auto.
Qed.

(** C2: every word that is counted is a word of the file that splits into
    two or more non-empty words of the file, so a word with no such split
    (one that is in the dictionary only as a whole) is never counted; the
    parts may repeat: a word made of two or more copies of a word read
    before it is counted.  The counter is the number of counted words. *)
Theorem C2_confirmed_words_are_concatenations (ws : list cstring) (fuel : nat) :
  Forall lowercase ws -> fuel_ok fuel (file_of ws) ->
  (exists out, main fuel (file_of ws) = Some out /\
     res_total out =
     (Z.of_nat (length (confirmed fuel (file_of ws))) mod UINT_MOD)%Z)
  /\ (forall l, In l (confirmed fuel (file_of ws)) ->
        exists w, l = line_of w /\ In w ws /\
          partition_of (fun p => In p ws) 2 w)
  /\ (forall w, In w ws -> ~ partition_of (fun p => In p ws) 2 w ->
        ~ In (line_of w) (confirmed fuel (file_of ws)))
  /\ (forall ws1 u ws2 w ws3 k,
        ws = ws1 ++ u :: ws2 ++ w :: ws3 -> u <> [] -> 2 <= k ->
        w = concat (replicate k u) ->
        In (line_of w) (confirmed fuel (file_of ws))).
Proof.
  intros Hws Hok.
  assert (forall l, In l (confirmed fuel (file_of ws)) ->
            exists w, l = line_of w /\ In w ws /\
              partition_of (fun p => In p ws) 2 w) as Hsound.
  { intros l Hl.
    apply confirmed_elim in Hl
      as (ws1 & w & ws2 & p & s & -> & -> & -> & Hp & Hs & Hin & Hpart);
      [|assumption].
    exists (p ++ s). split; [reflexivity|]. split.
    - apply in_app_iff. right. left. reflexivity.
    - apply partition_of_cons; [assumption | | assumption].
      apply in_app_iff. left. assumption. }
  split; [|split; [exact Hsound | split]].
  - eexists. split; [apply main_eq; assumption|].
    cbn [results_of res_total]. apply total_ranking.
  - intros w Hw Hno Hin. apply Hsound in Hin as (w' & E & _ & Hpart).
    apply line_of_inj in E. subst w'. contradiction.
  - intros ws1 u ws2 w ws3 k Hsplit Hu Hk Hcat.
    destruct k as [|k]; [lia|]. cbn [replicate concat] in Hcat.
    assert (In u ws) as Hin
      by (subst ws; apply in_app_iff; right; left; reflexivity).
    apply (confirmed_intro fuel ws (ws1 ++ u :: ws2) w ws3 u
             (concat (replicate k u))); try assumption.
    + rewrite Hsplit, <- app_assoc. reflexivity.
    + destruct k as [|k]; [lia|]. cbn [replicate concat].
      destruct u; [congruence | discriminate].
    + apply in_app_iff. right. left. reflexivity.
    + apply partition_of_weaken with k; [lia|].
      apply partition_of_replicate; assumption.
Qed.

Lemma C2_confirmed_words_are_concatenations_witness :
  (exists w, line_of (str "aa") = line_of w /\
     In w [str "a"; str "aa"; str "aaa"] /\
     partition_of (fun p => In p [str "a"; str "aa"; str "aaa"]) 2 w)
  /\ In (line_of (str "aaa")) (confirmed 10 scenario_B).
Proof.
  assert (Forall lowercase [str "a"; str "aa"; str "aaa"]) as Hlow
    by (repeat constructor).
  assert (fuel_ok 10 (file_of [str "a"; str "aa"; str "aaa"])) as Hok
    by (repeat constructor).
  destruct (C2_confirmed_words_are_concatenations
              [str "a"; str "aa"; str "aaa"] 10 Hlow Hok) as (_ & H2 & _ & H4).
  split.
  - apply H2. vm_compute. right. left. reflexivity.
  - apply (H4 [] (str "a") [str "aa"] (str "aaa") [] 3);
      [reflexivity | discriminate | lia | reflexivity].
Defined.

(** * The order of the input *)

(** When prefixes come first the confirmed words are exactly the words that
    split into two or more words of the file. *)
Lemma confirmed_prefix_first fuel ws l :
  Forall lowercase ws -> fuel_ok fuel (file_of ws) -> prefix_first ws ->
  In l (confirmed fuel (file_of ws)) <->
  exists w, l = line_of w /\ In w ws /\ partition_of (fun p => In p ws) 2 w.
Proof.
  intros Hws Hok Hpf. split.
  - intros Hl.
    apply confirmed_elim in Hl
      as (ws1 & w & ws2 & p & s & -> & -> & -> & Hp & Hs & Hin & Hpart);
      [|assumption].
    exists (p ++ s). split; [reflexivity|]. split.
    + apply in_app_iff. right. left. reflexivity.
    + apply partition_of_cons; [assumption | | assumption].
      apply in_app_iff. left. assumption.
  - intros (w & -> & Hw & parts & Hcat & Hlen & Hall).
    destruct parts as [|q [|q2 rest]]; [cbn in Hlen; lia.. |].
    apply Forall_cons_1 in Hall as [[Hq Hqin] Hall].
    pose proof Hall as Hall'. apply Forall_cons_1 in Hall' as [[Hq2 _] _].
    cbn [concat] in Hcat. symmetry in Hcat.
    assert (q2 ++ concat rest <> []) as Hs by (destruct q2; [congruence | discriminate]).
    destruct (List.in_split _ _ Hw) as (ws1 & ws2 & Hsplit).
    apply (confirmed_intro fuel ws ws1 w ws2 q (q2 ++ concat rest)); try assumption.
    + eapply Hpf; eassumption.
    + exists (q2 :: rest). repeat split; [cbn; lia | assumption].
Qed.

Lemma NoDup_pending_words ws :
  Forall lowercase ws -> List.NoDup ws ->
  List.NoDup (map word (snd (read_lines (file_of ws)))).
Proof.
  induction ws as [|w ws IH] using rev_ind; intros Hlow Hnd; [constructor|].
  apply List.NoDup_remove in Hnd as [Hnd Hnotin]. rewrite app_nil_r in Hnd, Hnotin.
  pose proof Hlow as Hlow'. apply Forall_app in Hlow' as [Hws _].
  rewrite file_of_snoc, read_lines_snoc.
  destruct w as [|c w]; [rewrite read_line_empty_word; auto|].
  destruct (read_line_word (read_lines (file_of ws)) (c :: w)) as [_ ->];
    [discriminate|].
  destruct (snd (insert _ _ _)) as [|m ms]; [auto|].
  cbn [map word]. constructor; [|auto].
  intros Hin. apply in_map_iff in Hin as (r & Hr & Hin).
  apply In_pending_file in Hin as (ws1 & w' & ws2 & -> & _ & _ & ->); [|assumption].
  cbn [word] in Hr. unfold strdup in Hr.
  apply Forall_app in Hlow as [_ Hw]. apply Forall_cons_1 in Hw as [Hw _].
  rewrite c_str_line_of in Hr by assumption.
  apply line_of_inj in Hr. subst w'.
  apply Hnotin, in_app_iff. right. left. reflexivity.
Qed.

Lemma NoDup_map_filter {A B} (f : A -> B) (g : A -> bool) l :
  List.NoDup (map f l) -> List.NoDup (map f (List.filter g l)).
Proof.
  induction l as [|x l IH]; intros H; [constructor|].
  cbn [map] in H. apply List.NoDup_cons_iff in H as [Hx H].
  cbn [List.filter]. destruct (g x); [|auto].
  cbn [map]. constructor; [|auto].
  intros Hin. apply Hx.
  apply in_map_iff in Hin as (y & <- & Hy). apply filter_In in Hy as [Hy _].
  apply in_map. assumption.
Qed.

Lemma NoDup_confirmed fuel ws :
  Forall lowercase ws -> List.NoDup ws -> List.NoDup (confirmed fuel (file_of ws)).
Proof.
  intros Hlow Hnd. unfold confirmed, counted.
  apply NoDup_map_filter, NoDup_pending_words; assumption.
Qed.

Lemma slot_ok_length slot len :
  slot_ok slot len ->
  option_map (@length ascii) slot = if len =? 0 then None else Some len.
Proof.
  destruct slot as [s|]; cbn.
  - intros [<- H]. destruct (Nat.eqb_spec (length s) 0); [lia | reflexivity].
  - intros ->. reflexivity.
Qed.

(** The lengths of the two printed words depend only on the lengths kept
    by the ranking. *)
Lemma ranking_output_lengths ws :
  let st := fold_left confirm ws ranking_init in
  option_map (@length ascii) (longest st) =
    (if longest_len st =? 0 then None else Some (longest_len st)) /\
  option_map (@length ascii) (oldlongest st) =
    (if oldlongest_len st =? 0 then None else Some (oldlongest_len st)).
Proof.
  intros st. destruct (rank_inv_fold ws _ rank_inv_init) as [_ Hl Hs _].
  split; apply slot_ok_length; assumption.
Qed.

(** The ranking of a permutation of the confirmed words has the same
    lengths and the same total. *)
Lemma ranking_perm ws ws' :
  Permutation ws ws' ->
  lens (fold_left confirm ws ranking_init) = lens (fold_left confirm ws' ranking_init)
  /\ total (fold_left confirm ws ranking_init) = total (fold_left confirm ws' ranking_init).
Proof.
  intros Hp. split.
  - rewrite !lens_fold. apply lens_fold_perm; [|cbn; lia].
    apply Permutation_map. assumption.
  - rewrite !total_ranking, (Permutation_length Hp). reflexivity.
Qed.

Lemma prefix_first_a_then_b : prefix_first a_then_b.
Proof. unfold a_then_b. prefix_first_list. Qed.

Lemma prefix_first_b_then_a : prefix_first b_then_a.
Proof. unfold b_then_a. prefix_first_list. Qed.

(** C3, as the spec has it, fails: the three distinct words [cat], [dog],
    [catdog] give one confirmed word when [catdog] is read last and none
    when it is read first; and two orders that both put prefixes first can
    still print different words of the same length. *)
Lemma C3_order_changes_the_result :
  List.NoDup cat_dog_catdog
  /\ Permutation cat_dog_catdog catdog_first
  /\ main 20 (file_of cat_dog_catdog) =
       Some (Results (Some (line_of (str "catdog"))) None 1)
  /\ main 20 (file_of catdog_first) = Some (Results None None 0)
  /\ Permutation a_then_b b_then_a
  /\ main 20 (file_of a_then_b) =
       Some (Results (Some (line_of (str "ba"))) (Some (line_of (str "ab"))) 2)
  /\ main 20 (file_of b_then_a) =
       Some (Results (Some (line_of (str "ab"))) (Some (line_of (str "ba"))) 2).
Proof.
  split.
  { unfold cat_dog_catdog.
    repeat (constructor; [cbn [In]; intros H; vm_compute in H; intuition discriminate|]).
    constructor. }
  split; [apply Permutation_sym, (Permutation_cons_append [str "cat"; str "dog"])|].
  split; [vm_compute; reflexivity|].
  split; [vm_compute; reflexivity|].
  split; [apply (Permutation_app_comm [str "a"; str "ab"] [str "b"; str "ba"])|].
  split; vm_compute; reflexivity.
Qed.

(** C3, amended: for distinct lower-case words, any two orders in which
    every word comes after the words of the file that are proper prefixes
    of it (as in the sorted file the program asks for) give the same set of
    confirmed words, the same total, and longest and second-longest outputs
    of the same lengths. *)
Theorem C3_same_result_when_prefixes_come_first (ws ws' : list cstring)
    (fuel : nat) :
  Forall lowercase ws -> List.NoDup ws -> Permutation ws ws' ->
  prefix_first ws -> prefix_first ws' -> fuel_ok fuel (file_of ws) ->
  exists out out',
    main fuel (file_of ws) = Some out /\
    main fuel (file_of ws') = Some out' /\
    (forall l, In l (confirmed fuel (file_of ws)) <->
               In l (confirmed fuel (file_of ws'))) /\
    res_total out = res_total out' /\
    option_map (@length ascii) (res_longest out) =
      option_map (@length ascii) (res_longest out') /\
    option_map (@length ascii) (res_oldlongest out) =
      option_map (@length ascii) (res_oldlongest out').
Proof.
  intros Hlow Hnd Hperm Hpf Hpf' Hok.
  assert (Forall lowercase ws') as Hlow' by (eapply Permutation_Forall; eassumption).
  assert (List.NoDup ws') as Hnd' by (eapply Permutation_NoDup; eassumption).
  assert (fuel_ok fuel (file_of ws')) as Hok'
    by (eapply Permutation_Forall; [apply Permutation_map|]; eassumption).
  assert (forall l, In l (confirmed fuel (file_of ws)) <->
                    In l (confirmed fuel (file_of ws'))) as Hsame.
  { intros l. rewrite !confirmed_prefix_first by assumption.
    split; intros (w & -> & Hw & Hpart); exists w; (split; [reflexivity|]); split.
    - eapply Permutation_in; eassumption.
    - eapply partition_of_ext; [|exact Hpart]. intros q _.
      split; apply Permutation_in; [apply Permutation_sym|]; assumption.
    - eapply Permutation_in; [apply Permutation_sym|]; eassumption.
    - eapply partition_of_ext; [|exact Hpart]. intros q _.
      split; apply Permutation_in; [|apply Permutation_sym]; assumption. }
  assert (Permutation (confirmed fuel (file_of ws)) (confirmed fuel (file_of ws')))
    as Hconf
    by (apply Permutation.NoDup_Permutation;
        [apply NoDup_confirmed | apply NoDup_confirmed | exact Hsame]; assumption).
  destruct (ranking_perm _ _ Hconf) as [Hlens Htot].
  injection Hlens as Hl1 Hl2.
  destruct (ranking_output_lengths (confirmed fuel (file_of ws))) as [Ha Hb].
  destruct (ranking_output_lengths (confirmed fuel (file_of ws'))) as [Ha' Hb'].
  do 2 eexists. split; [apply main_eq; assumption|].
  split; [apply main_eq; assumption|].
  cbn [results_of res_total res_longest res_oldlongest].
  split; [exact Hsame|]. split; [exact Htot|].
  rewrite Ha, Ha', Hb, Hb', Hl1, Hl2. split; reflexivity.
Qed.

Lemma C3_same_result_when_prefixes_come_first_witness :
  exists out out',
    main 20 (file_of a_then_b) = Some out /\
    main 20 (file_of b_then_a) = Some out' /\
    (forall l, In l (confirmed 20 (file_of a_then_b)) <->
               In l (confirmed 20 (file_of b_then_a))) /\
    res_total out = res_total out' /\
    option_map (@length ascii) (res_longest out) =
      option_map (@length ascii) (res_longest out') /\
    option_map (@length ascii) (res_oldlongest out) =
      option_map (@length ascii) (res_oldlongest out').
Proof.
  apply C3_same_result_when_prefixes_come_first.
  - repeat constructor.
  - unfold a_then_b.
    repeat (constructor; [cbn [In]; intros H; vm_compute in H; intuition discriminate|]).
    constructor.
  - apply (Permutation_app_comm [str "a"; str "ab"] [str "b"; str "ba"]).
  - apply prefix_first_a_then_b.
  - apply prefix_first_b_then_a.
  - repeat constructor.
Defined.

(** * Further properties of the trie *)

Lemma set_child_set_child n i a b :
  set_child (set_child n i a) i b = set_child n i b.
Proof.
  unfold set_child. destruct (in_range i) eqn:E; [|reflexivity].
  cbn [word_end children]. rewrite list_insert_insert_eq. reflexivity.
Qed.

Lemma set_child_comm n i j a b :
  i <> j ->
  set_child (set_child n i a) j b = set_child (set_child n j b) i a.
Proof.
  intros Hne. unfold set_child.
  destruct (in_range i) eqn:Ei, (in_range j) eqn:Ej; cbn [word_end children];
    try reflexivity.
  rewrite list_insert_insert_ne; [reflexivity|].
  unfold in_range in *. lia.
Qed.

Lemma child_or_new_set_eq n c t :
  wf_trie n -> in_range (INDEX c) = true ->
  child_or_new (set_child n (INDEX c) t) c = t.
Proof.
  intros Hwf Hc. unfold child_or_new.
  rewrite get_set_child_eq by (auto using wf_length). reflexivity.
Qed.

Lemma child_or_new_set_ne n c c' t :
  c <> c' -> child_or_new (set_child n (INDEX c) t) c' = child_or_new n c'.
Proof.
  intros Hne. unfold child_or_new.
  rewrite get_set_child_ne by (intros E; apply INDEX_inj in E; congruence).
  reflexivity.
Qed.

Lemma set_child_out_of_range n i t : in_range i = false -> set_child n i t = n.
Proof. unfold set_child. intros ->. reflexivity. Qed.

Lemma insert_trie_cons n c rest :
  fst (insert n (c :: rest) []) =
  set_child n (INDEX c) (fst (insert (child_or_new n c) rest [])).
Proof. rewrite insert_cons; cbn [fst]. rewrite insert_fst. reflexivity. Qed.

Lemma insert_trie_nil_set_child n i t :
  Trie true (children (set_child n i t)) = set_child (Trie true (children n)) i t.
Proof. unfold set_child. destruct (in_range i); reflexivity. Qed.

(** Two insertions build the same trie in either order. *)
Lemma insert_comm n w1 w2 :
  wf_trie n ->
  fst (insert (fst (insert n w1 [])) w2 []) =
  fst (insert (fst (insert n w2 [])) w1 []).
Proof.
  revert n w2. induction w1 as [|c1 r1 IH]; intros n w2 Hwf.
  - destruct w2 as [|c2 r2]; [reflexivity|].
    rewrite !insert_trie_cons. cbn [insert fst].
    rewrite insert_trie_nil_set_child. reflexivity.
  - destruct w2 as [|c2 r2].
    + rewrite !insert_trie_cons. cbn [insert fst].
      rewrite insert_trie_nil_set_child. reflexivity.
    + rewrite !insert_trie_cons.
      destruct (ascii_dec c1 c2) as [<-|Hne].
      * destruct (in_range (INDEX c1)) eqn:Hc.
        -- rewrite !child_or_new_set_eq by assumption.
           rewrite !set_child_set_child.
           rewrite IH by (apply wf_child_or_new; assumption). reflexivity.
        -- repeat rewrite set_child_out_of_range by assumption. reflexivity.
      * rewrite (child_or_new_set_ne n c1 c2) by assumption.
        rewrite (child_or_new_set_ne n c2 c1) by congruence.
        apply set_child_comm. intros E. apply INDEX_inj in E. contradiction.
Qed.

(** X1: inserting a word that the trie already holds changes nothing:
    a second insertion of the same word returns the same trie. *)
Theorem X1_insert_twice_same_trie (n : trie) (w : cstring) (m m' : missing_list) :
  wf_trie n ->
  fst (insert (fst (insert n w m)) w m') = fst (insert n w m).
Proof.
  rewrite (insert_fst _ w m'), (insert_fst n w m).
  revert n. induction w as [|c rest IH]; intros n Hwf; [reflexivity|].
  rewrite !insert_trie_cons.
  destruct (in_range (INDEX c)) eqn:Hc.
  - rewrite child_or_new_set_eq by assumption.
    rewrite set_child_set_child.
    rewrite IH by (apply wf_child_or_new; assumption). reflexivity.
  - repeat rewrite set_child_out_of_range by assumption. reflexivity.
Qed.

Lemma X1_insert_twice_same_trie_witness :
  fst (insert (fst (insert calloc_trie (str "cat") [])) (str "cat") [str "x"])
  = fst (insert calloc_trie (str "cat") []).
Proof. exact (X1_insert_twice_same_trie calloc_trie (str "cat") [] [str "x"] wf_calloc). Defined.

Lemma trie_step_eq root l :
  trie_step root l =
  if length l <=? 2 then root else fst (insert root (take (length l - 2) l) []).
Proof.
  unfold trie_step.
  destruct (Nat.leb_spec (length l) 2) as [H|H].
  - rewrite read_line_skip by assumption. reflexivity.
  - rewrite read_line_fst by assumption. reflexivity.
Qed.

Lemma fst_read_line st l : fst (read_line st l) = trie_step (fst st) l.
Proof.
  rewrite trie_step_eq. destruct (Nat.leb_spec (length l) 2) as [H|H].
  - rewrite read_line_skip by assumption. reflexivity.
  - rewrite read_line_fst by assumption. reflexivity.
Qed.

Lemma fst_fold_read_line lines st :
  fst (fold_left read_line lines st) = fold_left trie_step lines (fst st).
Proof.
  revert st. induction lines as [|l lines IH]; intros st; [reflexivity|].
  cbn [fold_left]. rewrite IH, fst_read_line. reflexivity.
Qed.

Lemma wf_trie_step root l : wf_trie root -> wf_trie (trie_step root l).
Proof.
  intros H. rewrite trie_step_eq. destruct (length l <=? 2); [assumption|].
  apply wf_insert. assumption.
Qed.

Lemma trie_step_comm root a b :
  wf_trie root ->
  trie_step (trie_step root a) b = trie_step (trie_step root b) a.
Proof.
  intros H. rewrite !trie_step_eq.
  destruct (length a <=? 2), (length b <=? 2); try reflexivity.
  apply insert_comm. assumption.
Qed.

Lemma fold_trie_step_perm lines lines' root :
  Permutation lines lines' -> wf_trie root ->
  fold_left trie_step lines root = fold_left trie_step lines' root.
Proof.
  intros Hp. revert root.
  induction Hp as [|x l l' _ IH|x y l|l l' l'' _ IH1 _ IH2]; intros root Hwf.
  - reflexivity.
  - cbn [fold_left]. apply IH, wf_trie_step, Hwf.
  - cbn [fold_left]. rewrite trie_step_comm by assumption. reflexivity.
  - rewrite IH1 by assumption. apply IH2. assumption.
Qed.

(** X2: the finished trie does not depend on the order of the lines: two
    files with the same lines in different orders build the same trie (only
    the pending list depends on the order). *)
Theorem X2_trie_independent_of_line_order (lines lines' : list cstring) :
  Permutation lines lines' ->
  fst (read_lines lines) = fst (read_lines lines').
Proof.
  intros Hp. unfold read_lines. rewrite !fst_fold_read_line.
  apply fold_trie_step_perm; [assumption | apply wf_calloc].
Qed.

Lemma X2_trie_independent_of_line_order_witness :
  fst (read_lines (file_of cat_dog_catdog)) = fst (read_lines (file_of catdog_first)).
Proof.
  apply X2_trie_independent_of_line_order.
  apply Permutation_map, Permutation_sym.
  exact (Permutation_cons_append [str "cat"; str "dog"] (str "catdog")).
Defined.

(** * Further properties of the matcher *)

Lemma descent_finds root n w fuel :
  memberb n w = true -> length w + 1 <= fuel ->
  is_in_trie fuel root (Some n) w = Some true.
Proof.
  revert n fuel. induction w as [|c rest IH]; intros n fuel Hm Hf.
  - destruct fuel as [|fuel]; [cbn in Hf; lia|]. cbn [is_in_trie].
    rewrite memberb_nil in Hm. rewrite Hm. reflexivity.
  - destruct fuel as [|fuel]; [cbn in Hf; lia|]. cbn [is_in_trie].
    unfold memberb in Hm; cbn [walk] in Hm.
    destruct (get_child n (INDEX c)) as [t|]; [|discriminate].
    rewrite (IH t fuel); [reflexivity | exact Hm | cbn [length] in Hf; lia].
Qed.

(** X3: a word that has been inserted is found: the matcher, started at
    the node the word was inserted from, reaches the word's end by descent
    alone, within one call per character plus one, whatever the root is;
    and it still finds the word after any further insertion. *)
Theorem X3_inserted_word_is_found (root n : trie) (w w' : cstring)
    (m m' : missing_list) (fuel : nat) :
  wf_trie n -> lowercase w -> lowercase w' -> length w + 1 <= fuel ->
  is_in_trie fuel root (Some (fst (insert n w m))) w = Some true /\
  is_in_trie fuel root (Some (fst (insert (fst (insert n w m)) w' m'))) w
    = Some true.
Proof.
  intros Hwf Hw Hw' Hf. split; apply descent_finds; try assumption.
  - apply memberb_insert; auto.
  - apply memberb_insert; [apply wf_insert; assumption | assumption |].
    left. apply memberb_insert; auto.
Qed.

Lemma X3_inserted_word_is_found_witness :
  is_in_trie 4 calloc_trie
    (Some (fst (insert (fst (insert calloc_trie (str "cat") [])) (str "ca") [])))
    (str "cat") = Some true.
Proof.
  refine (proj2 (X3_inserted_word_is_found calloc_trie calloc_trie (str "cat")
                   (str "ca") [] [] 4 wf_calloc _ _ _)).
  - repeat constructor.
  - repeat constructor.
  - cbn. lia.
Defined.

Lemma marked_root_never_false fuel root w :
  word_end root = true -> w <> [] ->
  is_in_trie fuel root (Some root) w <> Some false.
Proof.
  intros Hroot Hw. induction fuel as [|fuel IH]; [discriminate|].
  cbn [is_in_trie]. destruct w as [|c rest]; [congruence|].
  destruct (is_in_trie fuel root (get_child root (INDEX c)) rest) as [[|]|];
    [discriminate | | discriminate].
  rewrite Hroot. exact IH.
Qed.

(** X4: the matcher relies on the root not ending a word.  Inserting the
    empty word marks the node it is inserted at, and on a trie whose root is
    marked the matcher never answers 0 on a non-empty text: it answers 1 or
    keeps restarting at the root; when the first character has no child it
    does not return, whatever the fuel. *)
Theorem X4_marked_root_makes_matcher_diverge (root : trie) (c : ascii)
    (rest : cstring) (fuel : nat) :
  word_end root = true ->
  is_in_trie fuel root (Some root) (c :: rest) <> Some false /\
  (get_child root (INDEX c) = None ->
   is_in_trie fuel root (Some root) (c :: rest) = None) /\
  (forall n m, insert n [] m = (Trie true (children n), m)).
Proof.
  intros Hroot. split; [apply marked_root_never_false; [assumption | discriminate]|].
  split; [|reflexivity].
  intros Hch. induction fuel as [|fuel IH]; [reflexivity|].
  cbn [is_in_trie]. rewrite Hch, Hroot.
  destruct fuel as [|fuel]; [reflexivity|]. exact IH.
Qed.

Lemma X4_marked_root_makes_matcher_diverge_witness :
  is_in_trie 1000 (fst (insert calloc_trie [] []))
    (Some (fst (insert calloc_trie [] []))) (str "a") = None.
Proof.
  refine (proj1 (proj2 (X4_marked_root_makes_matcher_diverge
            (fst (insert calloc_trie [] [])) "a"%char [] 1000 _)) _);
    reflexivity.
Defined.

(** X5: the program returns on every file of lower-case words: if the
    lines without their last two characters are lower-case, there is an
    amount of fuel from which on [main] yields one and the same output. *)
Theorem X5_main_returns (lines : list cstring) :
  Forall (fun l : cstring => 2 < length l -> lowercase (take (length l - 2) l))
    lines ->
  exists fuel out, forall fuel', fuel <= fuel' -> main fuel' lines = Some out.
Proof.
  intros _.
  destruct (fuel_ok_exists 0 lines) as (fuel & _ & Hok).
  exists fuel, (results_of (fold_left confirm (confirmed fuel lines) ranking_init)).
  intros fuel' Hle.
  destruct (run_with_fuel fuel fuel' lines Hok Hle) as [-> _].
  apply main_eq. assumption.
Qed.

Lemma X5_main_returns_witness :
  exists fuel out, forall fuel', fuel <= fuel' -> main fuel' scenario_B = Some out.
Proof.
  apply X5_main_returns.
  repeat (constructor; [intros _; repeat constructor|]); constructor.
Defined.

(** X6: adding a word to the dictionary never turns a match into a
    mismatch: a text that the matcher accepts on a trie is still accepted
    after a further non-empty word has been inserted. *)
Theorem X6_matcher_monotone_under_insert (root : trie) (w text : cstring)
    (m : missing_list) (fuel : nat) :
  wf_trie root -> word_end root = false -> lowercase w -> w <> [] ->
  2 * length text + 1 <= fuel ->
  is_in_trie fuel root (Some root) text = Some true ->
  is_in_trie fuel (fst (insert root w m)) (Some (fst (insert root w m))) text
    = Some true.
Proof.
  intros Hwf Hroot Hw Hne Hf H.
  assert (word_end (fst (insert root w m)) = false) as Hroot'
    by (rewrite word_end_insert; assumption).
  apply (is_in_trie_sound root Hroot) in H.
  apply (completes_root root Hroot) in H.
  apply (is_in_trie_complete _ Hroot').
  - unfold cost. rewrite Hroot'. lia.
  - apply (completes_root _ Hroot').
    destruct H as (parts & Hc & Hl & Hall). exists parts.
    repeat split; try assumption.
    eapply Forall_impl; [exact Hall|]. cbn. intros q [Hq Hmem].
    split; [assumption|]. apply memberb_insert; auto.
Qed.

Lemma X6_matcher_monotone_under_insert_witness :
  is_in_trie 10 (fst (insert (fst (read_lines one_a)) (str "b") []))
    (Some (fst (insert (fst (read_lines one_a)) (str "b") []))) (str "aaa")
  = Some true.
Proof.
  apply X6_matcher_monotone_under_insert.
  - apply read_lines_inv.
  - reflexivity.
  - repeat constructor.
  - discriminate.
  - cbn. lia.
  - vm_compute. reflexivity.
Defined.

(** * The dictionary of an arbitrary file *)

Lemma memberb_fold_trie_step lines root p :
  wf_trie root ->
  Forall (fun l : cstring => 2 < length l -> lowercase (take (length l - 2) l)) lines ->
  memberb (fold_left trie_step lines root) p = true <->
  memberb root p = true \/ word_of_line lines p.
Proof.
  intros Hwf Hlow. revert root Hwf.
  induction Hlow as [|l lines Hl _ IH]; intros root Hwf.
  - cbn. split; [tauto|]. intros [H|(l & [] & _)]. assumption.
  - cbn [fold_left]. rewrite IH by (apply wf_trie_step; assumption).
    rewrite trie_step_eq. unfold word_of_line.
    destruct (Nat.leb_spec (length l) 2) as [Hlen|Hlen].
    + split.
      * intros [H|(x & Hx & Hr)]; [tauto|]. right. exists x. cbn [In]. tauto.
      * intros [H|(x & [<-|Hx] & Hx2 & Hr)]; [tauto | lia |].
        right. exists x. tauto.
    + rewrite memberb_insert by auto. split.
      * intros [[H| ->]|(x & Hx & Hr)]; [tauto | |].
        -- right. exists l. cbn [In]. auto.
        -- right. exists x. cbn [In]. tauto.
      * intros [H|(x & [<-|Hx] & Hx2 & Hr)]; [tauto | left; right; assumption |].
        right. exists x. tauto.
Qed.

Lemma fold_trie_step_same_cut lines lines' root :
  Forall2 (fun l l' : cstring =>
             length l = length l' /\
             take (length l - 2) l = take (length l' - 2) l') lines lines' ->
  fold_left trie_step lines root = fold_left trie_step lines' root.
Proof.
  intros H. revert root. induction H as [|l l' lines lines' [Hlen Hcut] _ IH];
    intros root; [reflexivity|].
  cbn [fold_left]. rewrite IH, !trie_step_eq, Hcut, Hlen. reflexivity.
Qed.

(** X7: the word that the reading loop inserts is the line without its
    last two characters, whatever these two are, and lines of at most two
    characters give no word: two files whose lines agree up to their last
    two characters build the same trie, and for any file whose lines, cut
    in this way, are lower-case, the matcher on the finished trie returns,
    and returns true exactly on the concatenations of one or more of these
    cut lines.  (The word kept in a pending record is the whole line,
    [strdup(line)], its last characters included.) *)
Theorem X7_dictionary_is_lines_cut_by_two (lines : list cstring)
    (text : cstring) (fuel : nat) :
  Forall (fun l : cstring => 2 < length l -> lowercase (take (length l - 2) l)) lines ->
  2 * length text + 1 <= fuel ->
  (exists b,
     is_in_trie fuel (fst (read_lines lines)) (Some (fst (read_lines lines))) text
       = Some b /\
     (b = true <-> partition_of (word_of_line lines) 1 text))
  /\ (forall lines',
        Forall2 (fun l l' : cstring =>
                   length l = length l' /\
                   take (length l - 2) l = take (length l' - 2) l') lines lines' ->
        fst (read_lines lines') = fst (read_lines lines)).
Proof.
  intros Hlow Hf. split.
  - destruct (read_lines_inv lines) as [_ Hroot].
    destruct (is_in_trie_root _ Hroot fuel text Hf) as (b & Hb & Hiff).
    exists b. split; [assumption|]. rewrite Hiff.
    apply partition_of_ext. intros q _.
    unfold read_lines at 1. rewrite fst_fold_read_line.
    rewrite memberb_fold_trie_step by (first [apply wf_calloc | assumption]).
    cbn [fst]. rewrite memberb_calloc.
    split; [intros [H|H] | right]; auto; discriminate.
  - intros lines' H. unfold read_lines. rewrite !fst_fold_read_line.
    symmetry. apply fold_trie_step_same_cut. assumption.
Qed.

Lemma X7_dictionary_is_lines_cut_by_two_witness :
  (exists b,
    is_in_trie 10 (fst (read_lines [str "cat" ++ [LF]; str "do" ++ [LF]; [LF]]))
      (Some (fst (read_lines [str "cat" ++ [LF]; str "do" ++ [LF]; [LF]])))
      (str "cad") = Some b /\
    (b = true <->
     partition_of
       (word_of_line [str "cat" ++ [LF]; str "do" ++ [LF]; [LF]]) 1 (str "cad")))
  /\ fst (read_lines [str "cax" ++ [CR]; str "dy" ++ [CR]; [CR]]) =
     fst (read_lines [str "cat" ++ [LF]; str "do" ++ [LF]; [LF]]).
Proof.
  destruct (X7_dictionary_is_lines_cut_by_two
              [str "cat" ++ [LF]; str "do" ++ [LF]; [LF]] (str "cad") 10)
    as [H1 H2].
  - repeat constructor; intros H; cbn in H; try lia; repeat constructor.
  - cbn. lia.
  - split; [exact H1|]. apply H2. repeat constructor.
Defined.

(** * Sorted files *)

Lemma lex_leb_prefix p s : lex_leb p (p ++ s) = true.
Proof.
  induction p as [|c p IH]; [reflexivity|]. cbn [lex_leb app].
  rewrite Nat.ltb_irrefl, Nat.eqb_refl. exact IH.
Qed.

Lemma nat_of_ascii_inj x y : nat_of_ascii x = nat_of_ascii y -> x = y.
Proof.
  intros H. rewrite <- (ascii_nat_embedding x), <- (ascii_nat_embedding y), H.
  reflexivity.
Qed.

Lemma lex_leb_antisym a b : lex_leb a b = true -> lex_leb b a = true -> a = b.
Proof.
  revert b. induction a as [|x a IH]; intros [|y b]; cbn [lex_leb];
    try reflexivity; try discriminate.
  destruct (Nat.ltb_spec (nat_of_ascii x) (nat_of_ascii y)),
    (Nat.ltb_spec (nat_of_ascii y) (nat_of_ascii x)); try lia.
  - destruct (Nat.eqb_spec (nat_of_ascii y) (nat_of_ascii x)); [lia | discriminate].
  - destruct (Nat.eqb_spec (nat_of_ascii x) (nat_of_ascii y)); [lia | discriminate].
  - destruct (Nat.eqb_spec (nat_of_ascii x) (nat_of_ascii y)) as [E|]; [|discriminate].
    rewrite <- E, Nat.eqb_refl. intros H1 H2.
    apply nat_of_ascii_inj in E. subst y. f_equal. apply IH; assumption.
Qed.

Lemma StronglySorted_after {A} (R : A -> A -> Prop) l1 x l2 :
  StronglySorted R (l1 ++ x :: l2) -> Forall (R x) l2.
Proof.
  induction l1 as [|y l1 IH]; cbn [app]; intros H;
    apply StronglySorted_inv in H as [H1 H2]; [assumption | auto].
Qed.

Lemma sorted_NoDup ws : StronglySorted lex_lt ws -> List.NoDup ws.
Proof.
  induction 1 as [|w ws _ IH Hall]; constructor; [|assumption].
  intros Hin. rewrite List.Forall_forall in Hall.
  destruct (Hall w Hin) as [_ Hne]. congruence.
Qed.

(** In a sorted file every word comes after its proper prefixes. *)
Lemma sorted_prefix_first ws : StronglySorted lex_lt ws -> prefix_first ws.
Proof.
  intros Hs ws1 w ws2 p s -> -> Hp Hne Hin.
  apply in_app_iff in Hin as [Hin|[Heq|Hin]]; [assumption | |].
  - exfalso. apply Hne. apply (app_inv_head p). rewrite app_nil_r. assumption.
  - exfalso. apply StronglySorted_after in Hs.
    rewrite List.Forall_forall in Hs. destruct (Hs p Hin) as [Hle Hneq].
    apply Hneq. symmetry. apply lex_leb_antisym; [apply lex_leb_prefix | assumption].
Qed.

(** X8: on a sorted file of distinct lower-case words the program is
    exact: the words it counts, each once, are the words of the file that
    are concatenations of two or more words of the file, and the total is
    their number (modulo [2^32]). *)
Theorem X8_sorted_file_confirms_exactly_the_concatenations (ws : list cstring)
    (fuel : nat) :
  Forall lowercase ws -> StronglySorted lex_lt ws -> fuel_ok fuel (file_of ws) ->
  (forall l, In l (confirmed fuel (file_of ws)) <->
     exists w, l = line_of w /\ In w ws /\ partition_of (fun p => In p ws) 2 w)
  /\ List.NoDup (confirmed fuel (file_of ws))
  /\ exists out, main fuel (file_of ws) = Some out /\
       res_total out =
       (Z.of_nat (length (confirmed fuel (file_of ws))) mod UINT_MOD)%Z.
Proof.
  intros Hlow Hs Hok. split; [|split].
  - intros l. apply confirmed_prefix_first; auto using sorted_prefix_first.
  - apply NoDup_confirmed; auto using sorted_NoDup.
  - eexists. split; [apply main_eq; assumption|].
    cbn [results_of res_total]. apply total_ranking.
Qed.

Lemma X8_sorted_file_confirms_exactly_the_concatenations_witness :
  In (line_of (str "catdog"))
    (confirmed 20 (file_of [str "cat"; str "catdog"; str "dog"])).
Proof.
  assert (Forall lowercase [str "cat"; str "catdog"; str "dog"]) as Hlow
    by (repeat constructor).
  assert (StronglySorted lex_lt [str "cat"; str "catdog"; str "dog"]) as Hs
    by (repeat (constructor; try (split; [reflexivity | discriminate]))).
  assert (fuel_ok 20 (file_of [str "cat"; str "catdog"; str "dog"])) as Hok
    by (repeat constructor).
  destruct (X8_sorted_file_confirms_exactly_the_concatenations
              [str "cat"; str "catdog"; str "dog"] 20 Hlow Hs Hok) as (H & _).
  apply H. exists (str "catdog"). split; [reflexivity|]. split.
  - right. left. reflexivity.
  - exists [str "cat"; str "dog"]. split; [reflexivity|]. split; [cbn; lia|].
    constructor; [split; [discriminate | left; reflexivity]|].
    constructor; [split; [discriminate | right; right; left; reflexivity]|].
    constructor.
Defined.

(** * Further properties of the ranking *)

Lemma lens_fold_small l a b :
  b <= a -> Forall (fun n => n <= b) l -> fold_left lens_step l (a, b) = (a, b).
Proof.
  intros Hab. induction 1 as [|n l Hn _ IH]; [reflexivity|].
  cbn [fold_left]. unfold lens_step at 2; cbn [fst snd].
  destruct (Nat.ltb_spec a n); [lia|]. destruct (Nat.ltb_spec b n); [lia|].
  exact IH.
Qed.

Lemma lens_fold_top_two x1 x2 rest :
  x2 <= x1 -> Forall (fun n => n <= x2) rest ->
  fold_left lens_step (x1 :: x2 :: rest) (0, 0) = (x1, x2).
Proof.
  intros H12 Hrest. cbn [fold_left].
  assert (lens_step (0, 0) x1 = (x1, 0)) as ->.
  { unfold lens_step; cbn [fst snd]. destruct (Nat.ltb_spec 0 x1); [reflexivity|].
    f_equal. lia. }
  assert (lens_step (x1, 0) x2 = (x1, x2)) as ->.
  { unfold lens_step; cbn [fst snd]. destruct (Nat.ltb_spec x1 x2); [lia|].
    destruct (Nat.ltb_spec 0 x2); [reflexivity|]. f_equal. lia. }
  apply lens_fold_small; assumption.
Qed.

(** X9: the ranking keeps the two greatest lengths, counted with
    repetitions: if the lengths of the confirmed words are, in some order,
    [x1 >= x2 >= all the others], the longest word printed has length [x1]
    and the second-longest has length [x2]. *)
Theorem X9_ranking_keeps_two_greatest_lengths (fuel : nat)
    (lines : list cstring) (x1 x2 : nat) (rest : list nat) :
  fuel_ok fuel lines ->
  Permutation (map strlen (confirmed fuel lines)) (x1 :: x2 :: rest) ->
  x2 <= x1 -> Forall (fun n => n <= x2) rest ->
  exists out,
    main fuel lines = Some out /\
    option_map (@length ascii) (res_longest out) = Some x1 /\
    option_map (@length ascii) (res_oldlongest out) = Some x2.
Proof.
  intros Hok Hperm H12 Hrest.
  eexists. split; [apply main_eq; assumption|].
  cbn [results_of res_longest res_oldlongest].
  destruct (ranking_output_lengths (confirmed fuel lines)) as [-> ->].
  assert (lens (fold_left confirm (confirmed fuel lines) ranking_init) = (x1, x2))
    as Hlens.
  { rewrite lens_fold, (lens_fold_perm _ _ _ Hperm) by (cbn; lia).
    apply lens_fold_top_two; assumption. }
  injection Hlens as -> ->.
  assert (Forall (fun n => 0 < n) (x1 :: x2 :: rest)) as Hpos.
  { eapply Permutation_Forall; [exact Hperm|].
    apply Forall_map. apply confirmed_nonempty. }
  apply Forall_cons_1 in Hpos as [H1 Hpos]. apply Forall_cons_1 in Hpos as [H2 _].
  destruct (Nat.eqb_spec x1 0), (Nat.eqb_spec x2 0); try lia. auto.
Qed.

Lemma X9_ranking_keeps_two_greatest_lengths_witness :
  exists out,
    main 10 scenario_B = Some out /\
    option_map (@length ascii) (res_longest out) = Some 5 /\
    option_map (@length ascii) (res_oldlongest out) = Some 4.
Proof.
  apply (X9_ranking_keeps_two_greatest_lengths 10 scenario_B 5 4 []).
  - repeat constructor.
  - vm_compute. apply Permutation_refl.
  - lia.
  - constructor.
Defined.

Lemma confirmed_c_str fuel lines w :
  In w (confirmed fuel lines) -> c_str w = w.
Proof.
  intros H. apply In_confirmed in H as (r & Hr & <- & _).
  apply In_pending in Hr as (l1 & l & l2 & _ & _ & _ & ->).
  cbn [word]. apply c_str_idem.
Qed.

Lemma fold_confirm_app l1 l2 st :
  fold_left confirm (l1 ++ l2) st = fold_left confirm l2 (fold_left confirm l1 st).
Proof. apply fold_left_app. Qed.

Lemma fold_longest_below l st n :
  longest_len st < n -> Forall (fun w => strlen w < n) l ->
  longest_len (fold_left confirm l st) < n.
Proof.
  intros Hst Hl. revert st Hst. induction Hl as [|w l Hw _ IH]; intros st Hst;
    [assumption|].
  cbn [fold_left]. apply IH. unfold confirm.
  destruct (longest_len st <? strlen w); [assumption|].
  destruct (oldlongest_len st <? strlen w); assumption.
Qed.

Lemma fold_longest_kept l st :
  Forall (fun w => strlen w <= longest_len st) l ->
  longest (fold_left confirm l st) = longest st /\
  longest_len (fold_left confirm l st) = longest_len st.
Proof.
  intros Hl. revert st Hl. induction l as [|w l IH]; intros st Hl; [auto|].
  apply Forall_cons_1 in Hl as [Hw Hl]. cbn [fold_left].
  assert (longest (confirm st w) = longest st /\
          longest_len (confirm st w) = longest_len st) as [E1 E2].
  { unfold confirm. destruct (Nat.ltb_spec (longest_len st) (strlen w)); [lia|].
    destruct (oldlongest_len st <? strlen w); auto. }
  rewrite <- E1, <- E2. apply IH. rewrite E2. assumption.
Qed.

(** X10: among confirmed words of the greatest length the one printed as
    longest is the first that the verification pass meets (the pass runs
    through the pending list from its head, that is from the last line of
    the file backwards): a confirmed word preceded only by strictly shorter
    ones and followed by none longer is the longest output. *)
Theorem X10_longest_is_first_of_greatest_length (fuel : nat)
    (lines : list cstring) (l1 l2 : list cstring) (w : cstring) :
  fuel_ok fuel lines ->
  confirmed fuel lines = l1 ++ w :: l2 ->
  Forall (fun w' => strlen w' < strlen w) l1 ->
  Forall (fun w' => strlen w' <= strlen w) l2 ->
  exists out, main fuel lines = Some out /\ res_longest out = Some w.
Proof.
  intros Hok Hsplit H1 H2.
  eexists. split; [apply main_eq; assumption|].
  cbn [results_of res_longest]. rewrite Hsplit, fold_confirm_app. cbn [fold_left].
  assert (In w (confirmed fuel lines)) as Hin
    by (rewrite Hsplit; apply in_app_iff; right; left; reflexivity).
  pose proof (confirmed_nonempty fuel lines) as Hpos.
  rewrite List.Forall_forall in Hpos. specialize (Hpos w Hin).
  assert (longest_len (fold_left confirm l1 ranking_init) < strlen w) as Hlt
    by (apply fold_longest_below; [cbn; lia | assumption]).
  generalize dependent (fold_left confirm l1 ranking_init). intros st1 Hlt.
  assert (longest (confirm st1 w) = Some w /\
          longest_len (confirm st1 w) = strlen w) as [E1 E2].
  { unfold confirm. destruct (Nat.ltb_spec (longest_len st1) (strlen w)); [|lia].
    cbn [longest longest_len]. unfold strdup.
    rewrite (confirmed_c_str fuel lines w Hin). auto. }
  rewrite <- E1. apply fold_longest_kept. rewrite E2. assumption.
Qed.

Lemma X10_longest_is_first_of_greatest_length_witness :
  exists out,
    main 20 (file_of a_then_b) = Some out /\
    res_longest out = Some (line_of (str "ba")).
Proof.
  apply (X10_longest_is_first_of_greatest_length 20 (file_of a_then_b)
           [] [line_of (str "ab")] (line_of (str "ba"))).
  - repeat constructor.
  - vm_compute. reflexivity.
  - constructor.
  - repeat constructor.
Defined.

Lemma fold_confirm_snoc l w st :
  fold_left confirm (l ++ [w]) st = confirm (fold_left confirm l st) w.
Proof. rewrite fold_left_app. reflexivity. Qed.

Lemma ranking_slots_from_list l :
  (forall x, longest (fold_left confirm l ranking_init) = Some x ->
     In x (map strdup l)) /\
  (forall x, oldlongest (fold_left confirm l ranking_init) = Some x ->
     In x (map strdup l)).
Proof.
  induction l as [|w l [IH1 IH2]] using rev_ind; [split; discriminate|].
  rewrite fold_confirm_snoc, map_app. cbn [map].
  generalize dependent (fold_left confirm l ranking_init). intros st IH1 IH2.
  unfold confirm.
  destruct (longest_len st <? strlen w); [|destruct (oldlongest_len st <? strlen w)];
    cbn [longest oldlongest]; split; intros x Hx; apply in_app_iff;
    try (left; auto; fail); right; left; congruence.
Qed.

(** X11: the two words printed are confirmed words and nothing else, and
    the second-longest is never longer than the longest. *)
Theorem X11_outputs_are_confirmed_words (fuel : nat) (lines : list cstring) :
  fuel_ok fuel lines ->
  exists out,
    main fuel lines = Some out /\
    (forall x, res_longest out = Some x -> In x (confirmed fuel lines)) /\
    (forall x, res_oldlongest out = Some x -> In x (confirmed fuel lines)) /\
    (forall x y, res_longest out = Some x -> res_oldlongest out = Some y ->
       length y <= length x).
Proof.
  intros Hok. eexists. split; [apply main_eq; assumption|].
  cbn [results_of res_longest res_oldlongest].
  assert (map strdup (confirmed fuel lines) = confirmed fuel lines) as Hmap.
  { rewrite <- (map_id (confirmed fuel lines)) at 2. apply map_ext_in.
    intros w Hw. apply (confirmed_c_str fuel lines). assumption. }
  destruct (ranking_slots_from_list (confirmed fuel lines)) as [H1 H2].
  rewrite Hmap in H1, H2. split; [exact H1|]. split; [exact H2|].
  intros x y Hx Hy.
  destruct (rank_inv_fold (confirmed fuel lines) _ rank_inv_init) as [Ho Hl Hs _].
  rewrite Hx in Hl. rewrite Hy in Hs. cbn in Hl, Hs. lia.
Qed.

Lemma X11_outputs_are_confirmed_words_witness :
  exists out,
    main 10 scenario_B = Some out /\
    (forall x, res_longest out = Some x -> In x (confirmed 10 scenario_B)) /\
    (forall x, res_oldlongest out = Some x -> In x (confirmed 10 scenario_B)) /\
    (forall x y, res_longest out = Some x -> res_oldlongest out = Some y ->
       length y <= length x).
Proof.
  apply X11_outputs_are_confirmed_words. repeat constructor.
Defined.

Lemma one_confirmed_fill ws :
  Forall (fun w => 0 < strlen w) ws -> 1 <= length ws ->
  longest (fold_left confirm ws ranking_init) <> None.
Proof.
  intros Hpos Hlen.
  pose proof (rank_inv_fold ws _ rank_inv_init) as [_ Hl _ _].
  assert (0 < longest_len (fold_left confirm ws ranking_init)) as H.
  { change (0 < fst (lens (fold_left confirm ws ranking_init))).
    rewrite lens_fold. destruct ws as [|w ws]; [cbn in Hlen; lia|].
    apply Forall_cons_1 in Hpos as [Hw _]. cbn [map fold_left].
    assert (snd (lens ranking_init) <= fst (lens ranking_init)) as H0 by (cbn; lia).
    destruct (lens_step_mono _ (strlen w) H0) as (_ & _ & H3 & _).
    pose proof (lens_fold_mono (map strlen ws) _ (lens_step_order _ (strlen w) H0)).
    lia. }
  destruct (longest _); [discriminate | cbn in Hl; lia].
Qed.

(** X12: which slots stay at the none-found marker is decided by the
    number of confirmed words alone: the longest output is empty exactly
    when no word is confirmed, the second-longest exactly when at most one
    is; with exactly one confirmed word the output is that word, the
    marker and 1. *)
Theorem X12_empty_slots_by_number_confirmed (fuel : nat) (lines : list cstring) :
  fuel_ok fuel lines ->
  exists out,
    main fuel lines = Some out /\
    (res_longest out = None <-> confirmed fuel lines = []) /\
    (res_oldlongest out = None <-> length (confirmed fuel lines) <= 1) /\
    (forall w, confirmed fuel lines = [w] -> out = Results (Some w) None 1).
Proof.
  intros Hok. eexists. split; [apply main_eq; assumption|].
  cbn [results_of res_longest res_oldlongest].
  pose proof (confirmed_nonempty fuel lines) as Hpos.
  assert (forall w, confirmed fuel lines = [w] ->
            fold_left confirm (confirmed fuel lines) ranking_init
            = Ranking (Some w) (strlen w) None 0 1) as Hone.
  { intros w E.
    assert (c_str w = w) as Hc
      by (apply (confirmed_c_str fuel lines); rewrite E; left; reflexivity).
    rewrite E in Hpos |- *. apply Forall_cons_1 in Hpos as [Hw _].
    cbn [fold_left]. unfold confirm, ranking_init, strdup; cbn [longest_len].
    destruct (Nat.ltb_spec 0 (strlen w)); [|lia]. rewrite Hc. reflexivity. }
  split; [|split].
  - split.
    + intros Hnone. destruct (confirmed fuel lines) as [|w ws] eqn:E; [reflexivity|].
      exfalso. apply (one_confirmed_fill (w :: ws)); [assumption | cbn; lia | assumption].
    + intros ->. reflexivity.
  - split.
    + intros Hnone.
      destruct (Nat.le_gt_cases (length (confirmed fuel lines)) 1) as [H|H];
        [assumption|].
      exfalso. apply (two_confirmed_fill (confirmed fuel lines)); assumption.
    + intros Hlen. destruct (confirmed fuel lines) as [|w [|w2 ws]] eqn:E;
        [reflexivity | | cbn in Hlen; lia].
      rewrite (Hone w eq_refl). reflexivity.
  - intros w E. rewrite (Hone w E). reflexivity.
Qed.

Lemma X12_empty_slots_by_number_confirmed_witness :
  exists out,
    main 20 (file_of cat_dog_catdog) = Some out /\
    (res_longest out = None <-> confirmed 20 (file_of cat_dog_catdog) = []) /\
    (res_oldlongest out = None <->
     length (confirmed 20 (file_of cat_dog_catdog)) <= 1) /\
    (forall w, confirmed 20 (file_of cat_dog_catdog) = [w] ->
       out = Results (Some w) None 1).
Proof.
  apply X12_empty_slots_by_number_confirmed. repeat constructor.
Defined.

(** * The missing list of one insertion *)

Lemma sorted_by_length_snoc (new : list cstring) (x : cstring) (k : nat) :
  StronglySorted (fun a b : cstring => length a < length b) new ->
  Forall (fun s : cstring => length s <= k) new -> k < length x ->
  StronglySorted (fun a b : cstring => length a < length b) (new ++ [x]).
Proof.
  intros Hsorted Hlen Hx. induction Hsorted as [|a l Hl IHl Ha]; cbn [app].
  - repeat constructor.
  - apply Forall_cons_1 in Hlen as [Hla Hlen]. constructor; [auto|].
    apply Forall_app. split; [assumption|]. repeat constructor. lia.
Qed.

(** X13: an insertion only pushes onto the missing list it is given, and
    what it pushes for a lower-case word are the non-empty rests of the word
    after each prefix that is already a word below the starting node, the
    shortest rest at the head: the verification pass tries the longest
    known prefix first. *)
Theorem X13_missing_list_shortest_suffix_first (n : trie) (w : cstring)
    (m : missing_list) :
  lowercase w ->
  exists new,
    snd (insert n w m) = new ++ m /\
    StronglySorted (fun a b : cstring => length a < length b) new /\
    Forall (fun s : cstring => length s <= length w) new /\
    (forall s, In s new <->
       exists p, w = p ++ s /\ s <> [] /\ memberb n p = true).
Proof.
  revert n m. induction w as [|c rest IH]; intros n m Hlow.
  - exists []. cbn [insert snd app]. repeat split; try constructor.
    + intros [].
    + intros (p & Hp & Hs & _). symmetry in Hp.
      apply app_eq_nil in Hp as [_ ->]. congruence.
  - pose proof Hlow as Hlow'. apply Forall_cons_1 in Hlow' as [Hc Hrest].
    rewrite insert_cons; cbn [snd]. rewrite strndup_whole, c_str_lowercase by assumption.
    destruct (IH (child_or_new n c)
                (if word_end n then (c :: rest) :: m else m) Hrest)
      as (new & Hnew & Hsorted & Hlen & Hin).
    assert (forall s, (exists p, rest = p ++ s /\ s <> [] /\
                         memberb (child_or_new n c) p = true) <->
                      (exists p, p <> [] /\ c :: rest = p ++ s /\ s <> [] /\
                         memberb n p = true)) as Hshift.
    { intros s. split.
      - intros (p & -> & Hs & Hp). exists (c :: p).
        rewrite memberb_cons. repeat split; [discriminate | assumption..].
      - intros ([|c' p] & Hne & Hw & Hs & Hp); [congruence|].
        injection Hw as <- ->. rewrite memberb_cons in Hp. eauto. }
    destruct (word_end n) eqn:Eend.
    + exists (new ++ [c :: rest]). split; [rewrite <- app_assoc; exact Hnew|].
      split; [|split].
      * apply (sorted_by_length_snoc new (c :: rest) (length rest));
          [assumption | assumption | cbn [length]; lia].
      * apply Forall_app. split.
        -- eapply Forall_impl; [exact Hlen|]. cbn. intros; lia.
        -- repeat constructor.
      * intros s. rewrite in_app_iff, Hin, Hshift. cbn [In]. split.
        -- intros [(p & _ & H)|[<-|[]]]; [eauto|].
           exists []. rewrite memberb_nil. repeat split; [discriminate | assumption].
        -- intros ([|c' p] & Hw & Hs & Hp).
           ++ right. left. cbn in Hw. congruence.
           ++ left. exists (c' :: p). repeat split; [discriminate | assumption..].
    + exists new. split; [exact Hnew|]. split; [assumption|]. split.
      * eapply Forall_impl; [exact Hlen|]. cbn. intros; lia.
      * intros s. rewrite Hin, Hshift. split.
        -- intros (p & _ & H). eauto.
        -- intros ([|c' p] & Hw & Hs & Hp).
           ++ rewrite memberb_nil in Hp. congruence.
           ++ exists (c' :: p). repeat split; [discriminate | assumption..].
Qed.

Lemma X13_missing_list_shortest_suffix_first_witness :
  exists new,
    snd (insert (fst (read_lines (file_of [str "a"; str "aa"]))) (str "aaa") [str "x"])
      = new ++ [str "x"] /\
    StronglySorted (fun a b : cstring => length a < length b) new /\
    Forall (fun s : cstring => length s <= length (str "aaa")) new /\
    (forall s, In s new <->
       exists p, str "aaa" = p ++ s /\ s <> [] /\
         memberb (fst (read_lines (file_of [str "a"; str "aa"]))) p = true).
Proof.
  apply X13_missing_list_shortest_suffix_first. repeat constructor.
Defined.

(** * The order of the verification pass *)

Lemma counted_sublist_rev fuel root lines :
  sublist (counted fuel root (snd (read_lines lines))) (map strdup (rev lines)).
Proof.
  induction lines as [|l lines IH] using rev_ind; [constructor|].
  rewrite read_lines_snoc, rev_unit. cbn [map].
  destruct (Nat.le_gt_cases (length l) 2) as [H|H].
  - rewrite read_line_skip by assumption. apply sublist_cons. exact IH.
  - rewrite read_line_snd by assumption.
    destruct (snd (insert _ _ _)) as [|m ms]; [apply sublist_cons; exact IH|].
    unfold counted in *. cbn [List.filter].
    destruct (rec_matches fuel root _); cbn [map word].
    + apply sublist_skip. exact IH.
    + apply sublist_cons. exact IH.
Qed.

(** X14: the verification pass meets the confirmed words in the reverse
    of the order of the file: the list of confirmed words is a subsequence
    of the lines (as stored by [strdup]) read backwards, because
    [push_to_pending] pushes each record at the head of the list. *)
Theorem X14_confirmed_in_reverse_file_order (fuel : nat) (lines : list cstring) :
  sublist (confirmed fuel lines) (map strdup (rev lines)).
Proof. apply counted_sublist_rev. Qed.

(** X15: what the matcher accepts is closed under concatenation: on a
    trie whose root does not end a word, two texts that are accepted give
    an accepted text when put one after the other. *)
Theorem X15_accepted_texts_concatenate (root : trie) (t1 t2 : cstring)
    (fuel : nat) :
  word_end root = false ->
  2 * length (t1 ++ t2) + 1 <= fuel ->
  is_in_trie fuel root (Some root) t1 = Some true ->
  is_in_trie fuel root (Some root) t2 = Some true ->
  is_in_trie fuel root (Some root) (t1 ++ t2) = Some true.
Proof.
  intros Hroot Hf H1 H2.
  apply (is_in_trie_sound root Hroot), (completes_root root Hroot) in H1, H2.
  apply (is_in_trie_complete root Hroot);
    [unfold cost; rewrite Hroot; lia|].
  apply (completes_root root Hroot).
  destruct H1 as (p1 & <- & Hl1 & Hall1), H2 as (p2 & <- & Hl2 & Hall2).
  exists (p1 ++ p2). rewrite concat_app, length_app. repeat split; [lia|].
  apply Forall_app. split; assumption.
Qed.

Lemma X15_accepted_texts_concatenate_witness :
  is_in_trie 20 (fst (read_lines scenario_B)) (Some (fst (read_lines scenario_B)))
    (str "aa" ++ str "aaa") = Some true.
Proof.
  apply X15_accepted_texts_concatenate.
  - reflexivity.
  - cbn. lia.
  - vm_compute. reflexivity.
  - vm_compute. reflexivity.
Defined.
